(** * PWA assets generator: Apple splash-screen instruction resolution

    A shallow embedding of [src/api/apple-icons-helper.ts] (the option
    cascader [resolveAppleSplashScreens], the variant expander and the asset
    entry builder of [resolveAppleSplashScreensInstructions]) and of the
    [run] operation of [src/cli-start.ts], together with the properties the
    design document states about them.

    Conventions of the embedding.
    - A JavaScript [number] holding a pixel dimension is a [Z]; a padding
      proportion (only ever passed along, never computed with) is a [Q].
    - An optional property [f?: T] is a field of type [option T]; [None] is
      [undefined].  An object is always truthy, so [x ? a : b] on an
      optional object is a test for [Some].
    - [Map<number, number>] is a [gmap Z Z].
    - A JavaScript object used as a dictionary keeps its keys in insertion
      order: it is an association list updated by [obj_set].
    - A deferred producer (a closure calling the image compositor) is the
      record of the arguments the closure passes when it is invoked.
    - A property that is present with the value [undefined] and a property
      that is absent are not told apart: the code never does. *)

From Stdlib Require Import ZArith QArith_base.
From stdpp Require Import gmap strings list pretty.

Close Scope Q_scope.
Open Scope Z_scope.
Open Scope string_scope.
Open Scope list_scope.

(** ** Data model *)

(** [ResizeOptions] of the image library: every property is optional. *)
Record ResizeOptions := mkResizeOptions {
  ro_width : option Z;
  ro_height : option Z;
  ro_fit : option string;
  ro_position : option string;
  ro_background : option string;
  ro_kernel : option string;
  ro_withoutEnlargement : option bool;
  ro_withoutReduction : option bool;
  ro_fastShrinkOnLoad : option bool;
}.

(** The object literal [{}] at type [ResizeOptions]. *)
Definition emptyResizeOptions : ResizeOptions :=
  mkResizeOptions None None None None None None None None None.

(** [PngOptions] of the image library. *)
Record PngOptions := mkPngOptions {
  png_progressive : option bool;
  png_compressionLevel : option Z;
  png_adaptiveFiltering : option bool;
  png_palette : option bool;
  png_quality : option Z;
  png_effort : option Z;
  png_colours : option Z;
  png_dither : option Q;
}.

Definition emptyPngOptions : PngOptions :=
  mkPngOptions None None None None None None None None.

(** Modelled from the spec: the declaration of [AppleDeviceSize] lives in
    [src/types.ts], which is not part of the sources at hand.  The design
    document gives the size descriptor as
    [{width, height, resizeOptions?, darkResizeOptions?, padding?, png?}]. *)
Record AppleDeviceSize := mkAppleDeviceSize {
  width : Z;
  height : Z;
  padding : option Q;
  png : option PngOptions;
  resizeOptions : option ResizeOptions;
  darkResizeOptions : option ResizeOptions;
}.

(** [interface SplashScreenData] (apple-icons-helper.ts, lines 140-147). *)
Record SplashScreenData := mkSplashScreenData {
  ssd_size : AppleDeviceSize;
  ssd_landscape : bool;
  ssd_dark : option bool;
  ssd_resizeOptions : option ResizeOptions;
  ssd_padding : Q;
  ssd_png : PngOptions;
}.

(** ** JavaScript operators *)

(** [a ?? b]. *)
Definition nullish {A} (a : option A) (b : A) : A :=
  match a with Some x => x | None => b end.

Infix "??" := nullish (at level 45, left associativity).

(** Truthiness of an optional object. *)
Definition truthy {A} (a : option A) : bool :=
  match a with Some _ => true | None => false end.

(** Truthiness of an optional boolean: only [true] is truthy. *)
Definition truthyBool (a : option bool) : bool :=
  match a with Some true => true | _ => false end.

(** [acc.push(x)]. *)
Definition push {A} (acc : list A) (x : A) : list A := acc ++ [x].

(** ** The variant expander (lines 22-94) *)

(** [{ width: lheight, height: lwidth, ...rest } = o] followed by
    [{ ...rest, width: lwidth, height: lheight }]: the two dimension
    properties trade places, the rest is spread unchanged. *)
Definition transposeResizeOptions (o : ResizeOptions) : ResizeOptions :=
  let lheight := ro_width o in
  let lwidth := ro_height o in
  {| ro_width := lwidth;
     ro_height := lheight;
     ro_fit := ro_fit o;
     ro_position := ro_position o;
     ro_background := ro_background o;
     ro_kernel := ro_kernel o;
     ro_withoutEnlargement := ro_withoutEnlargement o;
     ro_withoutReduction := ro_withoutReduction o;
     ro_fastShrinkOnLoad := ro_fastShrinkOnLoad o |}.

(** The state threaded through the [reduce] callback: the [sizesMap]
    captured by the closure and the accumulator. *)
Definition ExpandState : Type := gmap Z Z * list SplashScreenData.

(** The body of the callback given to [sizes.reduce] (lines 23-94);
    [png0] is the resolved configuration's [png]. *)
Definition expandStep (png0 : PngOptions) (st : ExpandState)
    (size : AppleDeviceSize) : ExpandState :=
  let '(sizesMap, acc) := st in
  if bool_decide (sizesMap !! width size = Some (height size)) then
    (sizesMap, acc)
  else
    let sizesMap := <[width size := height size]> sizesMap in
    (* const { width: height, height: width, ...restSize } = size *)
    let height' := width size in
    let width' := height size in
    let landscapeResizeOptions :=
      transposeResizeOptions (resizeOptions size ?? emptyResizeOptions) in
    let landscapeSize :=
      {| width := width'; height := height';
         padding := padding size; png := png size;
         resizeOptions := Some landscapeResizeOptions;
         darkResizeOptions := darkResizeOptions size |} in
    let dark0 := if truthy (darkResizeOptions size) then Some false else None in
    let acc := push acc
      {| ssd_size := size; ssd_landscape := false; ssd_dark := dark0;
         ssd_resizeOptions := resizeOptions size;
         ssd_padding := padding size ?? (3 # 10)%Q;
         ssd_png := png size ?? png0 |} in
    let acc := push acc
      {| ssd_size := landscapeSize; ssd_landscape := true; ssd_dark := dark0;
         ssd_resizeOptions := resizeOptions landscapeSize;
         ssd_padding := padding size ?? (3 # 10)%Q;
         ssd_png := png size ?? png0 |} in
    match darkResizeOptions size with
    | Some dro =>
        let landscapeDarkResizeOptions := transposeResizeOptions dro in
        let landscapeDarkSize :=
          {| width := width'; height := height';
             padding := padding size; png := png size;
             resizeOptions := Some landscapeDarkResizeOptions;
             darkResizeOptions := None |} in
        let acc := push acc
          {| ssd_size := size; ssd_landscape := false; ssd_dark := Some true;
             ssd_resizeOptions := darkResizeOptions size;
             ssd_padding := padding size ?? (3 # 10)%Q;
             ssd_png := png size ?? png0 |} in
        let acc := push acc
          {| ssd_size := landscapeDarkSize; ssd_landscape := true;
             ssd_dark := Some true;
             ssd_resizeOptions := Some landscapeDarkResizeOptions;
             ssd_padding := padding size ?? (3 # 10)%Q;
             ssd_png := png size ?? png0 |} in
        (sizesMap, acc)
    | None => (sizesMap, acc)
    end.

(** [sizes.reduce(callback, [])] with a fresh [sizesMap]. *)
Definition expandFrom (png0 : PngOptions) (st : ExpandState)
    (sizes : list AppleDeviceSize) : ExpandState :=
  fold_left (expandStep png0) sizes st.

Definition splashScreensOf (png0 : PngOptions)
    (sizes : list AppleDeviceSize) : list SplashScreenData :=
  (expandFrom png0 (∅, []) sizes).2.

(** *** What one execution of the callback appends *)

(** The variants pushed by the callback for a descriptor that passes the
    duplicate check: the pushed list itself, read off [expandStep]. *)
Definition variantsOf (png0 : PngOptions) (size : AppleDeviceSize)
    : list SplashScreenData :=
  (expandStep png0 (∅, []) size).2.

(** The four variants of a descriptor, named: the record literals of
    lines 46-53 and 76-83 (portrait) and of lines 36-45, 54-61, 68-75 and
    84-91 (landscape). *)
Definition portraitOf (png0 : PngOptions) (dark : option bool)
    (ro : option ResizeOptions) (size : AppleDeviceSize) : SplashScreenData :=
  {| ssd_size := size; ssd_landscape := false; ssd_dark := dark;
     ssd_resizeOptions := ro;
     ssd_padding := padding size ?? (3 # 10)%Q;
     ssd_png := png size ?? png0 |}.

Definition landscapeOf (png0 : PngOptions) (dark : option bool)
    (ro : ResizeOptions) (darkRo : option ResizeOptions)
    (size : AppleDeviceSize) : SplashScreenData :=
  {| ssd_size :=
       {| width := height size; height := width size;
          padding := padding size; png := png size;
          resizeOptions := Some (transposeResizeOptions ro);
          darkResizeOptions := darkRo |};
     ssd_landscape := true; ssd_dark := dark;
     ssd_resizeOptions := Some (transposeResizeOptions ro);
     ssd_padding := padding size ?? (3 # 10)%Q;
     ssd_png := png size ?? png0 |}.

(** The descriptors for which the callback does not return early, starting
    from a given content of [sizesMap]. *)
Fixpoint keptFrom (sizesMap : gmap Z Z) (sizes : list AppleDeviceSize)
    : list AppleDeviceSize :=
  match sizes with
  | [] => []
  | size :: rest =>
      if bool_decide (sizesMap !! width size = Some (height size)) then
        keptFrom sizesMap rest
      else
        size :: keptFrom (<[width size := height size]> sizesMap) rest
  end.

Definition keptOf (sizes : list AppleDeviceSize) : list AppleDeviceSize :=
  keptFrom ∅ sizes.

(** The declared dimensions of the descriptor a variant comes from: the
    landscape variants carry them transposed. *)
Definition declaredDims (v : SplashScreenData) : Z * Z :=
  if ssd_landscape v
  then (height (ssd_size v), width (ssd_size v))
  else (width (ssd_size v), height (ssd_size v)).

Definition dims (size : AppleDeviceSize) : Z * Z := (width size, height size).

(** *** The deduplication policy as the design document words it *)

(** A running set of [(width, height)] pairs: a descriptor whose pair is
    already a member is skipped, otherwise its pair is added and the
    descriptor is expanded. *)
Fixpoint dedupByDimsFrom (seen : gset (Z * Z)) (sizes : list AppleDeviceSize)
    : list AppleDeviceSize :=
  match sizes with
  | [] => []
  | size :: rest =>
      if bool_decide (dims size ∈ seen) then dedupByDimsFrom seen rest
      else size :: dedupByDimsFrom ({[dims size]} ∪ seen) rest
  end.

Definition dedupByDims (sizes : list AppleDeviceSize) : list AppleDeviceSize :=
  dedupByDimsFrom ∅ sizes.

(** The variant count of the design document: four per distinct descriptor
    with a dark override, two per distinct descriptor without. *)
Definition specVariantCount (sizes : list AppleDeviceSize) : nat :=
  (4 * length (filter (λ d, is_Some (darkResizeOptions d)) (dedupByDims sizes))
   + 2 * length (filter (λ d, ¬ is_Some (darkResizeOptions d)) (dedupByDims sizes)))%nat.

(** The (orientation, colour scheme) tags of one descriptor's group, in
    the order the design document lists them. *)
Definition groupOrder (size : AppleDeviceSize) : list (bool * option bool) :=
  match darkResizeOptions size with
  | Some _ => [(false, Some false); (true, Some false);
               (false, Some true); (true, Some true)]
  | None => [(false, None); (true, None)]
  end.

(** ** Configuration and result types of the splash-screen resolution *)

(** [AppleSplashScreenName]: the injected naming function
    [(landscape, size, dark) => string]. *)
Definition AppleSplashScreenName : Type :=
  bool → AppleDeviceSize → option bool → string.

(** [AppleTouchStartupImageOptions], as the user gives them. *)
Record AppleTouchStartupImageOptions := mkLinkMediaOptions {
  lmo_log : option bool;
  lmo_addMediaScreen : option bool;
  lmo_basePath : option string;
  lmo_xhtml : option bool;
}.

Definition emptyLinkMediaOptions : AppleTouchStartupImageOptions :=
  mkLinkMediaOptions None None None None.

(** The same options once lines 182-187 have applied their defaults. *)
Record ResolvedLinkMediaOptions := mkResolvedLinkMediaOptions {
  rl_log : bool;
  rl_addMediaScreen : bool;
  rl_basePath : string;
  rl_xhtml : bool;
}.

(** Modelled from the spec: [AppleSplashScreens] is declared in
    [src/types.ts] (absent); its properties are the ones destructured at
    lines 154-162, the preset-level layer of the design document. *)
Record AppleSplashScreens := mkAppleSplashScreens {
  use_padding : option Q;
  use_resizeOptions : option ResizeOptions;
  use_darkResizeOptions : option ResizeOptions;
  use_linkMediaOptions : option AppleTouchStartupImageOptions;
  use_sizes : list AppleDeviceSize;
  use_name : option AppleSplashScreenName;
  use_png : option PngOptions;
}.

(** [ResolvedAppleSplashScreens]: the object literal of lines 188-199. *)
Record ResolvedAppleSplashScreens := mkResolvedAppleSplashScreens {
  r_padding : Q;
  r_sizes : list AppleDeviceSize;
  r_linkMediaOptions : ResolvedLinkMediaOptions;
  r_name : AppleSplashScreenName;
  r_png : PngOptions;
}.

(** The source image: a [Buffer]. *)
Definition Buffer : Type := list Byte.byte.

(** The structured form of an HTML link: its attributes. *)
Definition HtmlLink : Type := list (string * string).

(** The options object handed to [createAppleSplashScreenHtmlLink]
    (lines 115-134). *)
Record HtmlLinkOptions := mkHtmlLinkOptions {
  lo_size : AppleDeviceSize;
  lo_landscape : bool;
  lo_addMediaScreen : bool;
  lo_xhtml : bool;
  lo_name : AppleSplashScreenName;
  lo_basePath : string;
  lo_dark : option bool;
  lo_includeId : bool;
}.

(** The deferred producer [() => generateMaskableAsset('png', image,
    size.size, { padding, resizeOptions, outputOptions })] of lines
    101-108, as the arguments it will pass. *)
Record MaskableAssetCall := mkMaskableAssetCall {
  call_type : string;
  call_image : Buffer;
  call_size : AppleDeviceSize;
  call_padding : Q;
  call_resizeOptions : ResizeOptions;
  call_outputOptions : PngOptions;
}.

(** The asset entry assigned at lines 109-136. *)
Record AssetEntry := mkAssetEntry {
  e_name : string;
  e_url : string;
  e_width : Z;
  e_height : Z;
  e_mimeType : string;
  e_link : string;
  e_linkObject : HtmlLink;
  e_buffer : MaskableAssetCall;
}.

(** A JavaScript object used as a dictionary with string keys. *)
Definition Obj (A : Type) : Type := list (string * A).

(** [o[key] = value]: an existing key keeps its place and takes the new
    value, a new key is added last.  (The keys here are URLs; keys that
    look like array indices, which JavaScript would order first, do not
    occur.) *)
Fixpoint obj_set {A} (key : string) (value : A) (o : Obj A) : Obj A :=
  match o with
  | [] => [(key, value)]
  | (k, v) :: rest =>
      if bool_decide (k = key) then (k, value) :: rest
      else (k, v) :: obj_set key value rest
  end.

Definition obj_keys {A} (o : Obj A) : list string := map fst o.

(** Modelled from the spec: [ImageAssetsInstructions] is declared in
    [src/api/types.ts] (absent).  The design document describes it as a
    mapping from asset category to a mapping from URL to asset entry, with
    the categories plain favicon, transparent icon, maskable icon, Apple
    touch icon, Apple splash screen and Windows tile; [run] reads its
    [image] and [originalName]. *)
Record ImageAssetsInstructions := mkInstructions {
  image : string;
  originalName : string;
  favicon : Obj AssetEntry;
  transparent : Obj AssetEntry;
  maskable : Obj AssetEntry;
  apple : Obj AssetEntry;
  appleSplashScreen : Obj AssetEntry;
  windows : Obj AssetEntry;
}.

(** Modelled from the spec: of [ImageAssets] (declared in
    [src/api/types.ts], absent) the resolution reads [basePath] and
    [htmlLinks.includeId]. *)
Record ImageAssets := mkImageAssets {
  ia_basePath : string;
  ia_includeId : bool;
}.

Definition set_appleSplashScreen (o : Obj AssetEntry)
    (i : ImageAssetsInstructions) : ImageAssetsInstructions :=
  {| image := image i; originalName := originalName i;
     favicon := favicon i; transparent := transparent i;
     maskable := maskable i; apple := apple i;
     appleSplashScreen := o; windows := windows i |}.

(** ** Collaborators of the resolution

    Functions the resolution imports from modules that are not among the
    sources at hand ([./defaults.ts], [../splash.ts], [./html.ts]).  The
    resolution is stated for arbitrary implementations of them. *)
Record Collaborators := mkCollaborators {
  createResizeOptions : bool → ResizeOptions → ResizeOptions;
  createPngCompressionOptions : PngOptions → PngOptions;
  defaultSplashScreenName : AppleSplashScreenName;
  createAppleSplashScreenHtmlLinkString : HtmlLinkOptions → string;
  createAppleSplashScreenHtmlLinkObject : HtmlLinkOptions → HtmlLink;
}.

(** ** The option cascader: [resolveAppleSplashScreens] (lines 149-203) *)

(** One turn of the loop of lines 169-181 on [size]: a property whose
    [typeof] is ['undefined'] receives the preset-level value. *)
Definition backfill (padding0 : Q) (png0 : PngOptions)
    (resizeOptions0 darkResizeOptions0 : ResizeOptions)
    (size : AppleDeviceSize) : AppleDeviceSize :=
  {| width := width size;
     height := height size;
     padding :=
       match padding size with None => Some padding0 | Some p => Some p end;
     png :=
       match png size with None => Some png0 | Some p => Some p end;
     resizeOptions :=
       match resizeOptions size with
       | None => Some resizeOptions0 | Some o => Some o end;
     darkResizeOptions :=
       match darkResizeOptions size with
       | None => Some darkResizeOptions0 | Some o => Some o end |}.

Definition resolveLinkMediaOptions (o : AppleTouchStartupImageOptions)
    : ResolvedLinkMediaOptions :=
  {| rl_log := lmo_log o ?? true;
     rl_addMediaScreen := lmo_addMediaScreen o ?? true;
     rl_basePath := lmo_basePath o ?? "/";
     rl_xhtml := lmo_xhtml o ?? false |}.

(** The body of [if (useAppleSplashScreens) { ... }] (lines 153-200). *)
Definition resolveGiven (lib : Collaborators) (use : AppleSplashScreens)
    : ResolvedAppleSplashScreens :=
  let padding0 := use_padding use ?? (3 # 10)%Q in
  let useResizeOptions := use_resizeOptions use ?? emptyResizeOptions in
  let useDarkResizeOptions :=
    use_darkResizeOptions use ?? emptyResizeOptions in
  let useLinkMediaOptions :=
    use_linkMediaOptions use ?? emptyLinkMediaOptions in
  let sizes := use_sizes use in
  let name := use_name use ?? defaultSplashScreenName lib in
  let usePng := use_png use ?? emptyPngOptions in
  (* Initialize defaults *)
  let resizeOptions0 := createResizeOptions lib false useResizeOptions in
  let darkResizeOptions0 :=
    createResizeOptions lib true useDarkResizeOptions in
  let png0 := createPngCompressionOptions lib usePng in
  let sizes :=
    map (backfill padding0 png0 resizeOptions0 darkResizeOptions0) sizes in
  {| r_padding := padding0;
     r_sizes := sizes;
     r_linkMediaOptions := resolveLinkMediaOptions useLinkMediaOptions;
     r_name := name;
     r_png := png0 |}.

Definition resolveAppleSplashScreens (lib : Collaborators)
    (useAppleSplashScreens : option AppleSplashScreens)
    : option ResolvedAppleSplashScreens :=
  match useAppleSplashScreens with
  | None => None
  | Some use => Some (resolveGiven lib use)
  end.

(** The size objects are assigned to in place: after the call the caller's
    configuration holds the back-filled descriptors. *)
Definition configAfterResolve (lib : Collaborators)
    (useAppleSplashScreens : option AppleSplashScreens)
    : option AppleSplashScreens :=
  match useAppleSplashScreens, resolveAppleSplashScreens lib useAppleSplashScreens with
  | Some use, Some resolved =>
      Some {| use_padding := use_padding use;
              use_resizeOptions := use_resizeOptions use;
              use_darkResizeOptions := use_darkResizeOptions use;
              use_linkMediaOptions := use_linkMediaOptions use;
              use_sizes := r_sizes resolved;
              use_name := use_name use;
              use_png := use_png use |}
  | _, _ => useAppleSplashScreens
  end.

(** ** The asset entry builder (lines 98-137) *)

(** The [resizeOptions] object of lines 103-106. *)
Definition producerResizeOptions (size : SplashScreenData) : ResizeOptions :=
  let spread := ssd_resizeOptions size ?? emptyResizeOptions in
  {| ro_width := ro_width spread;
     ro_height := ro_height spread;
     ro_fit := ro_fit spread;
     ro_position := ro_position spread;
     ro_background :=
       Some ((ssd_resizeOptions size ≫= ro_background)
             ?? (if truthyBool (ssd_dark size) then "black" else "white"));
     ro_kernel := ro_kernel spread;
     ro_withoutEnlargement := ro_withoutEnlargement spread;
     ro_withoutReduction := ro_withoutReduction spread;
     ro_fastShrinkOnLoad := ro_fastShrinkOnLoad spread |}.

Definition linkOptionsOf (imageAssets : ImageAssets)
    (appleSplashScreens : ResolvedAppleSplashScreens)
    (size : SplashScreenData) : HtmlLinkOptions :=
  let linkMediaOptions := r_linkMediaOptions appleSplashScreens in
  {| lo_size := ssd_size size;
     lo_landscape := ssd_landscape size;
     lo_addMediaScreen := rl_addMediaScreen linkMediaOptions;
     lo_xhtml := rl_xhtml linkMediaOptions;
     lo_name := r_name appleSplashScreens;
     lo_basePath := rl_basePath linkMediaOptions;
     lo_dark := ssd_dark size;
     lo_includeId := ia_includeId imageAssets |}.

(** The key and the entry one turn of the loop assigns. *)
Definition entryOf (lib : Collaborators) (image0 : Buffer)
    (imageAssets : ImageAssets)
    (appleSplashScreens : ResolvedAppleSplashScreens)
    (size : SplashScreenData) : string * AssetEntry :=
  let name := r_name appleSplashScreens
                (ssd_landscape size) (ssd_size size) (ssd_dark size) in
  let url := ia_basePath imageAssets +:+ name in
  let promise :=
    {| call_type := "png";
       call_image := image0;
       call_size := ssd_size size;
       call_padding := ssd_padding size;
       call_resizeOptions := producerResizeOptions size;
       call_outputOptions := ssd_png size |} in
  (url,
   {| e_name := name;
      e_url := url;
      e_width := width (ssd_size size);
      e_height := height (ssd_size size);
      e_mimeType := "image/png";
      e_link := createAppleSplashScreenHtmlLinkString lib
                  (linkOptionsOf imageAssets appleSplashScreens size);
      e_linkObject := createAppleSplashScreenHtmlLinkObject lib
                  (linkOptionsOf imageAssets appleSplashScreens size);
      e_buffer := promise |}).

(** The entries of one resolution, in the order the loop assigns them. *)
Definition splashEntries (lib : Collaborators) (image0 : Buffer)
    (imageAssets : ImageAssets)
    (appleSplashScreens : ResolvedAppleSplashScreens)
    : list (string * AssetEntry) :=
  map (entryOf lib image0 imageAssets appleSplashScreens)
      (splashScreensOf (r_png appleSplashScreens) (r_sizes appleSplashScreens)).

(** [instructions.appleSplashScreen[url] = entry], for every entry. *)
Definition assignAll (entries : list (string * AssetEntry))
    (o : Obj AssetEntry) : Obj AssetEntry :=
  fold_left (λ o kv, obj_set kv.1 kv.2 o) entries o.

(** ** [resolveAppleSplashScreensInstructions] (lines 9-138)

    The function returns nothing; its effect is on the [instructions]
    object and on the size objects of the configuration, both given back
    here. *)
Definition resolveAppleSplashScreensInstructions (lib : Collaborators)
    (image0 : Buffer) (imageAssets : ImageAssets)
    (instructions : ImageAssetsInstructions)
    (useAppleSplashScreens : option AppleSplashScreens)
    : ImageAssetsInstructions * option AppleSplashScreens :=
  let config' := configAfterResolve lib useAppleSplashScreens in
  match resolveAppleSplashScreens lib useAppleSplashScreens with
  | None => (instructions, config')
  | Some appleSplashScreens =>
      if bool_decide (length (r_sizes appleSplashScreens) = 0%nat) then
        (instructions, config')
      else
        (set_appleSplashScreen
           (assignAll (splashEntries lib image0 imageAssets appleSplashScreens)
                      (appleSplashScreen instructions))
           instructions,
         config')
  end.

(** ** The layered cascade as the design document words it *)

(** Field by field: a property set in [over] wins, an unset one is taken
    from [base]. *)
Definition overlayResizeOptions (over base : ResizeOptions) : ResizeOptions :=
  {| ro_width := ro_width over ∪ ro_width base;
     ro_height := ro_height over ∪ ro_height base;
     ro_fit := ro_fit over ∪ ro_fit base;
     ro_position := ro_position over ∪ ro_position base;
     ro_background := ro_background over ∪ ro_background base;
     ro_kernel := ro_kernel over ∪ ro_kernel base;
     ro_withoutEnlargement :=
       ro_withoutEnlargement over ∪ ro_withoutEnlargement base;
     ro_withoutReduction := ro_withoutReduction over ∪ ro_withoutReduction base;
     ro_fastShrinkOnLoad := ro_fastShrinkOnLoad over ∪ ro_fastShrinkOnLoad base |}.

(** Per-size over preset-level over global default, each layer optional. *)
Definition specCascadeResizeOptions (globalDefault : ResizeOptions)
    (presetLevel perSize : option ResizeOptions) : ResizeOptions :=
  overlayResizeOptions (perSize ?? emptyResizeOptions)
    (overlayResizeOptions (presetLevel ?? emptyResizeOptions) globalDefault).

(** Modelled from the spec: the global-default layer of the resize
    options, [src/api/defaults.ts] being absent.  The design document
    names one constant, the background fill: white, or black for the dark
    colour scheme. *)
Definition globalResizeDefaults (dark : bool) : ResizeOptions :=
  {| ro_width := None; ro_height := None; ro_fit := None;
     ro_position := None;
     ro_background := Some (if dark then "black" else "white");
     ro_kernel := None; ro_withoutEnlargement := None;
     ro_withoutReduction := None; ro_fastShrinkOnLoad := None |}.

(** Modelled from the spec: [createResizeOptions] of the absent
    [src/api/defaults.ts], as the preset-level layer laid field by field
    over the global defaults. *)
Definition specCreateResizeOptions (dark : bool) (options : ResizeOptions)
    : ResizeOptions :=
  overlayResizeOptions options (globalResizeDefaults dark).

(** Modelled from the spec: [createPngCompressionOptions] of the absent
    [src/api/defaults.ts]; the design document names no compression
    constant, so the global layer is left empty. *)
Definition specCreatePngCompressionOptions (options : PngOptions) : PngOptions :=
  options.

(** ** A concrete set of collaborators, for evaluation *)

Definition schemeInfix (dark : option bool) : string :=
  match dark with
  | Some true => "dark-"
  | Some false => "light-"
  | None => ""
  end.

(** Modelled from the spec: a naming function [(landscape, size, dark) ->
    string], pure and deterministic; [src/splash.ts], which holds the
    default one, is absent. *)
Definition sampleSplashScreenName : AppleSplashScreenName :=
  λ landscape size dark,
    "apple-splash-" +:+ (if landscape then "landscape-" else "portrait-")
    +:+ schemeInfix dark
    +:+ pretty (width size) +:+ "x" +:+ pretty (height size) +:+ ".png".

(** Modelled from the spec: the structured link of [src/api/html.ts]
    (absent), with the attributes the design document lists. *)
Definition sampleLinkObject (o : HtmlLinkOptions) : HtmlLink :=
  [("rel", "apple-touch-startup-image");
   ("href", lo_basePath o +:+ lo_name o (lo_landscape o) (lo_size o) (lo_dark o));
   ("media", (if lo_landscape o then "(orientation: landscape)"
              else "(orientation: portrait)")
             +:+ match lo_dark o with
                 | Some true => " and (prefers-color-scheme: dark)"
                 | Some false => " and (prefers-color-scheme: light)"
                 | None => ""
                 end)].

Definition sampleLinkString (o : HtmlLinkOptions) : string :=
  "<link " +:+
  String.concat " " (map (λ kv, kv.1 +:+ "='" +:+ kv.2 +:+ "'") (sampleLinkObject o))
  +:+ (if lo_xhtml o then " />" else ">").

Definition sampleLib : Collaborators :=
  {| createResizeOptions := specCreateResizeOptions;
     createPngCompressionOptions := specCreatePngCompressionOptions;
     defaultSplashScreenName := sampleSplashScreenName;
     createAppleSplashScreenHtmlLinkString := sampleLinkString;
     createAppleSplashScreenHtmlLinkObject := sampleLinkObject |}.

(** A descriptor that sets nothing but its dimensions. *)
Definition bareSize (w h : Z) : AppleDeviceSize :=
  {| width := w; height := h; padding := None; png := None;
     resizeOptions := None; darkResizeOptions := None |}.

(** A configuration that sets nothing but its sizes. *)
Definition bareConfig (sizes : list AppleDeviceSize) : AppleSplashScreens :=
  {| use_padding := None; use_resizeOptions := None;
     use_darkResizeOptions := None; use_linkMediaOptions := None;
     use_sizes := sizes; use_name := None; use_png := None |}.

Definition emptyInstructions : ImageAssetsInstructions :=
  {| image := "pwa.svg"; originalName := "pwa.svg";
     favicon := []; transparent := []; maskable := []; apple := [];
     appleSplashScreen := []; windows := [] |}.

Definition sampleImageAssets : ImageAssets :=
  {| ia_basePath := "/"; ia_includeId := false |}.

(** ** The command-line [run] operation (cli-start.ts, lines 41-133) *)

(** The built-in preset names the command line documents (line 29). *)
Inductive BuiltInPreset := minimal | android | windows_preset | ios | all_presets.

(** Modelled from the spec: a preset is "declarative configuration
    describing which asset categories and sizes to produce"; of a custom
    preset only the splash-screen part is kept.  [src/config.ts], which
    declares these types, is absent. *)
Inductive Preset :=
  | BuiltIn (name : BuiltInPreset)
  | Custom (appleSplashScreens : option AppleSplashScreens).

(** [images: string | string[]]. *)
Inductive Images :=
  | OneImage (path : string)
  | ManyImages (paths : list string).

Record HeadLinkOptions := mkHeadLinkOptions {
  hl_preset : option string;
  hl_xhtml : option bool;
  hl_includeId : option bool;
  hl_basePath : option string;
  hl_resolveSvgName : option (string → string);
}.

(** The properties of [UserConfig] that [run] reads. *)
Record UserConfig := mkUserConfig {
  cfg_logLevel : option string;
  cfg_overrideAssets : option bool;
  cfg_preset : option Preset;
  cfg_images : option Images;
  cfg_headLinkOptions : option HeadLinkOptions;
  cfg_manifestIconsEntry : option bool;
}.

(** [interface CliOptions] (lines 15-20). *)
Record CliOptions := mkCliOptions {
  cli_root : option string;
  cli_config : option string;
  cli_preset : option BuiltInPreset;
  cli_headLinkOptions : option HeadLinkOptions;
  cli_override : option bool;
  cli_manifest : option bool;
}.

Definition emptyCliOptions : CliOptions :=
  mkCliOptions None None None None None None.

(** The argument of one [resolveInstructions] call (lines 81-90); the
    image resolver is the path its [readFile] will open. *)
Record ResolveArgs := mkResolveArgs {
  ra_imageResolver : string;
  ra_imageName : string;
  ra_originalName : string;
  ra_preset : Preset;
  ra_faviconPreset : option string;
  ra_htmlLinks : bool * bool;
  ra_basePath : string;
  ra_resolveSvgName : string → string;
}.

(** An exception is either an [Error] that [run] itself constructs or the
    failure of a collaborator. *)
Inductive Exception :=
  | JsError (message : string)
  | Foreign (reason : string).

Inductive Result (A : Type) :=
  | Ok (a : A)
  | Err (e : Exception).
Arguments Ok {A} a.
Arguments Err {A} e.

(** What [run] does to the outside, in program order. *)
Inductive Event :=
  | Consola (method message : string)
  | ConsoleLog (message : string)
  | LoadConfig (root : string) (cliOptions : CliOptions)
  | ResolveInstructions (args : ResolveArgs)
  | GenerateAssets (instruction : ImageAssetsInstructions)
      (overrideAssets : bool) (outDir : string) (log : bool).

(** The modules [run] calls into; none of them is among the sources. *)
Record CliCollaborators := mkCliCollaborators {
  version : string;
  cwd : string;
  path_resolve : string → string → string;
  path_basename : string → string;
  path_dirname : string → string;
  loadConfig : string → CliOptions → Result UserConfig;
  resolveInstructions : ResolveArgs → Result ImageAssetsInstructions;
  generateAssets :
    ImageAssetsInstructions → bool → string → bool → Result unit;
  generateHtmlMarkup : ImageAssetsInstructions → list string;
  generateManifestIconsEntry : ImageAssetsInstructions → string;
}.

(** The body of an [async] function: it extends the trace of events and
    ends by returning or by throwing. *)
Definition Async (A : Type) : Type := list Event → list Event * Result A.

Definition pure {A} (a : A) : Async A := λ tr, (tr, Ok a).

Definition throw {A} (e : Exception) : Async A := λ tr, (tr, Err e).

Definition andThen {A B} (m : Async A) (k : A → Async B) : Async B :=
  λ tr, match m tr with
        | (tr', Ok a) => k a tr'
        | (tr', Err e) => (tr', Err e)
        end.

Definition emit (ev : Event) : Async unit := λ tr, ((tr ++ [ev])%list, Ok tt).

(** [await] of a collaborator's promise. *)
Definition await {A} (r : Result A) : Async A := λ tr, (tr, r).

Notation "'let*' x ':=' m 'in' k" := (andThen m (λ x, k))
  (at level 10, x name, m at level 100, k at level 200).
Notation "m ';;' k" := (andThen m (λ _, k))
  (at level 100, k at level 200, right associativity).

Fixpoint forEach {A} (l : list A) (body : A → Async unit) : Async unit :=
  match l with
  | [] => pure tt
  | x :: rest => body x ;; forEach rest body
  end.

(** [await Promise.all(l.map(f))]: every call is made, then the results
    are collected; the first failure is the one reported. *)
Fixpoint collect {A} (l : list (Result A)) : Result (list A) :=
  match l with
  | [] => Ok []
  | Ok a :: rest =>
      match collect rest with Ok l' => Ok (a :: l') | Err e => Err e end
  | Err e :: _ => Err e
  end.

(** [x.length] of an [images] value, with [undefined?.length] falsy. *)
Definition imagesLength (i : option Images) : nat :=
  match i with
  | None => 0
  | Some (OneImage p) => String.length p
  | Some (ManyImages l) => length l
  end.

Definition resolveArgsOf (ext : CliCollaborators) (root : string)
    (preset : Preset) (userHeadLinkOptions : option HeadLinkOptions)
    (xhtml includeId : bool) (i : string) : ResolveArgs :=
  {| ra_imageResolver := path_resolve ext root i;
     ra_imageName := path_resolve ext root i;
     ra_originalName := i;
     ra_preset := preset;
     ra_faviconPreset := userHeadLinkOptions ≫= hl_preset;
     ra_htmlLinks := (xhtml, includeId);
     ra_basePath := (userHeadLinkOptions ≫= hl_basePath) ?? "/";
     ra_resolveSvgName :=
       (userHeadLinkOptions ≫= hl_resolveSvgName) ?? (λ name, path_basename ext name) |}.

Definition run (ext : CliCollaborators) (images : option (list string))
    (cliOptions : option CliOptions) : Async unit :=
  let images := images ?? [] in
  let cliOptions := cliOptions ?? emptyCliOptions in
  emit (Consola "log" ("Zero Config PWA Assets Generator v" +:+ version ext)) ;;
  emit (Consola "start" "Preparing to generate PWA assets...") ;;
  let root := cli_root cliOptions ?? cwd ext in
  emit (LoadConfig root cliOptions) ;;
  let* config := await (loadConfig ext root cliOptions) in
  match cfg_preset config with
  | None => throw (JsError "No preset found")
  | Some preset =>
      let configImages :=
        if bool_decide (length images ≠ 0%nat) then Some (ManyImages images)
        else cfg_images config in
      if bool_decide (imagesLength configImages = 0%nat) then
        throw (JsError "No images provided")
      else
        let logLevel := cfg_logLevel config ?? "info" in
        let overrideAssets := cfg_overrideAssets config ?? true in
        let userHeadLinkOptions := cfg_headLinkOptions config in
        let manifestIconsEntry := cfg_manifestIconsEntry config ?? true in
        let useOverrideAssets :=
          if bool_decide (cli_override cliOptions = Some false) then false
          else overrideAssets in
        let useManifestIconsEntry :=
          if bool_decide (cli_manifest cliOptions = Some false) then false
          else manifestIconsEntry in
        let useImages :=
          match configImages with
          | Some (ManyImages l) => l
          | Some (OneImage p) => [p]
          | None => []
          end in
        let xhtml :=
          bool_decide (userHeadLinkOptions ≫= hl_xhtml = Some true) in
        let includeId :=
          bool_decide (userHeadLinkOptions ≫= hl_includeId = Some true) in
        emit (Consola "start" "Resolving instructions...") ;;
        (* 1. resolve instructions *)
        let calls :=
          map (resolveArgsOf ext root preset userHeadLinkOptions xhtml includeId)
              useImages in
        forEach calls (λ args, emit (ResolveInstructions args)) ;;
        let* instructions :=
          await (collect (map (resolveInstructions ext) calls)) in
        emit (Consola "ready"
                "PWA assets ready to be generated, instructions resolved") ;;
        emit (Consola "start"
                ("Generating PWA assets from " +:+ String.concat ", " useImages
                 +:+ " image"
                 +:+ (if bool_decide (1 < length useImages)%nat then "s" else ""))) ;;
        let log := bool_decide (logLevel ≠ "silent") in
        forEach instructions (λ instruction,
          (* 2. generate assets *)
          emit (Consola "start"
                  ("Generating assets for " +:+ originalName instruction +:+ "...")) ;;
          let outDir := path_dirname ext (image instruction) in
          emit (GenerateAssets instruction useOverrideAssets outDir log) ;;
          let* _ := await (generateAssets ext instruction useOverrideAssets outDir log) in
          emit (Consola "ready"
                  ("Assets generated for " +:+ originalName instruction)) ;;
          if bool_decide (logLevel ≠ "silent") then
            (* 3. html markup *)
            let links := generateHtmlMarkup ext instruction in
            (if bool_decide (length links ≠ 0%nat) then
               emit (Consola "start" "Generating Html Head Links...") ;;
               forEach links (λ link, emit (ConsoleLog link)) ;;
               emit (Consola "ready" "Html Head Links generated")
             else pure tt) ;;
            (* 4. web manifest icons entry *)
            (if useManifestIconsEntry then
               emit (Consola "start" "Generating PWA web manifest icons entry...") ;;
               emit (ConsoleLog (generateManifestIconsEntry ext instruction)) ;;
               emit (Consola "ready" "PWA web manifest icons entry generated")
             else pure tt)
          else pure tt) ;;
        emit (Consola "ready" "PWA assets generated")
  end.

(** How a call completes for its caller: by throwing, or by returning a
    value. *)
Inductive Completion (A : Type) :=
  | Throws (e : Exception)
  | Returns (a : A).
Arguments Throws {A} e.
Arguments Returns {A} a.

(** The state a promise settles in. *)
Inductive Settled (A : Type) :=
  | Fulfilled (a : A)
  | Rejected (e : Exception).
Arguments Fulfilled {A} a.
Arguments Rejected {A} e.

(** Calling an [async function]: the call itself always returns a
    promise; what the body returns fulfils it, what the body throws
    rejects it. *)
Definition callAsync {A} (body : Async A) : list Event * Completion (Settled A) :=
  match body [] with
  | (tr, Ok a) => (tr, Returns (Fulfilled a))
  | (tr, Err e) => (tr, Returns (Rejected e))
  end.

Definition isResolveInstructions (ev : Event) : bool :=
  match ev with ResolveInstructions _ => true | _ => false end.

(** A stand-in for the collaborators of [run], for evaluation: the
    configuration loader returns a fixed configuration and every other
    collaborator succeeds. *)
Definition sampleCli (config : UserConfig) : CliCollaborators :=
  {| version := "0.2.6";
     cwd := "/work";
     path_resolve := λ root i, root +:+ "/" +:+ i;
     path_basename := λ name, name;
     path_dirname := λ name, "/work";
     loadConfig := λ _ _, Ok config;
     resolveInstructions := λ args,
       Ok {| image := ra_imageName args; originalName := ra_originalName args;
             favicon := []; transparent := []; maskable := []; apple := [];
             appleSplashScreen := []; windows := [] |};
     generateAssets := λ _ _ _ _, Ok tt;
     generateHtmlMarkup := λ _, [];
     generateManifestIconsEntry := λ _, "{}" |}.

Definition configWith (preset : option Preset) (images : option Images)
    : UserConfig :=
  {| cfg_logLevel := None; cfg_overrideAssets := None; cfg_preset := preset;
     cfg_images := images; cfg_headLinkOptions := None;
     cfg_manifestIconsEntry := None |}.

(** ** Concrete inputs *)

(** Three devices of one width: the first and the third declare the same
    pixel dimensions, the second a different height. *)
Definition interleavedSizes : list AppleDeviceSize :=
  [bareSize 1242 2208; bareSize 1242 2688; bareSize 1242 2208].

(** The same three devices, the first with padding 0.3 and the third with
    padding 0.1. *)
Definition interleavedPaddedSizes : list AppleDeviceSize :=
  [{| width := 1242; height := 2208; padding := Some (3 # 10)%Q; png := None;
      resizeOptions := None; darkResizeOptions := None |};
   bareSize 1242 2688;
   {| width := 1242; height := 2208; padding := Some (1 # 10)%Q; png := None;
      resizeOptions := None; darkResizeOptions := None |}].

(** The two descriptors of the design document's deduplication example. *)
Definition adjacentDuplicates : list AppleDeviceSize :=
  [bareSize 320 480;
   {| width := 320; height := 480; padding := Some (1 # 10)%Q; png := None;
      resizeOptions := None; darkResizeOptions := None |}].

(** Every resize-option property other than the two dimensions. *)
Definition sameOtherFields (a b : ResizeOptions) : Prop :=
  ro_fit a = ro_fit b
  ∧ ro_position a = ro_position b
  ∧ ro_background a = ro_background b
  ∧ ro_kernel a = ro_kernel b
  ∧ ro_withoutEnlargement a = ro_withoutEnlargement b
  ∧ ro_withoutReduction a = ro_withoutReduction b
  ∧ ro_fastShrinkOnLoad a = ro_fastShrinkOnLoad b.

(** What relates a landscape variant [l] to the portrait variant [p] of
    the descriptor [size]. *)
Definition transposes (size : AppleDeviceSize) (p l : SplashScreenData) : Prop :=
  ssd_size p = size
  ∧ ssd_landscape p = false
  ∧ ssd_dark p = ssd_dark l
  ∧ ssd_resizeOptions p =
      (if truthyBool (ssd_dark l) then darkResizeOptions size
       else resizeOptions size)
  ∧ width (ssd_size l) = height size
  ∧ height (ssd_size l) = width size
  ∧ ∃ lro,
      ssd_resizeOptions l = Some lro
      ∧ resizeOptions (ssd_size l) = Some lro
      ∧ ro_width lro = ro_height (ssd_resizeOptions p ?? emptyResizeOptions)
      ∧ ro_height lro = ro_width (ssd_resizeOptions p ?? emptyResizeOptions)
      ∧ sameOtherFields lro (ssd_resizeOptions p ?? emptyResizeOptions).

(** A descriptor with resize options of its own for both colour schemes. *)
Definition sampleDarkSize : AppleDeviceSize :=
  {| width := 640; height := 1136; padding := None; png := None;
     resizeOptions :=
       Some {| ro_width := Some 640; ro_height := Some 1136;
               ro_fit := Some "contain"; ro_position := None;
               ro_background := None; ro_kernel := None;
               ro_withoutEnlargement := None; ro_withoutReduction := None;
               ro_fastShrinkOnLoad := None |};
     darkResizeOptions :=
       Some {| ro_width := Some 600; ro_height := Some 1100;
               ro_fit := Some "cover"; ro_position := None;
               ro_background := Some "#222"; ro_kernel := None;
               ro_withoutEnlargement := None; ro_withoutReduction := None;
               ro_fastShrinkOnLoad := None |} |}.

(** A descriptor as the cascader leaves it, given the configuration it
    belongs to: [backfill] with the four preset-level values
    [resolveGiven] computes. *)
Definition cascadeSize (lib : Collaborators) (use : AppleSplashScreens)
    (size : AppleDeviceSize) : AppleDeviceSize :=
  backfill (use_padding use ?? (3 # 10)%Q)
    (createPngCompressionOptions lib (use_png use ?? emptyPngOptions))
    (createResizeOptions lib false (use_resizeOptions use ?? emptyResizeOptions))
    (createResizeOptions lib true (use_darkResizeOptions use ?? emptyResizeOptions))
    size.

(** The variants one resolution emits for a configuration. *)
Definition emittedVariants (lib : Collaborators) (use : AppleSplashScreens)
    : list SplashScreenData :=
  splashScreensOf (r_png (resolveGiven lib use)) (r_sizes (resolveGiven lib use)).

(** A per-size record that sets only [width], under a preset-level record
    that sets [height]. *)
Definition widthOnly : ResizeOptions :=
  {| ro_width := Some 100; ro_height := None; ro_fit := None;
     ro_position := None; ro_background := None; ro_kernel := None;
     ro_withoutEnlargement := None; ro_withoutReduction := None;
     ro_fastShrinkOnLoad := None |}.

Definition heightOnly : ResizeOptions :=
  {| ro_width := None; ro_height := Some 200; ro_fit := None;
     ro_position := None; ro_background := None; ro_kernel := None;
     ro_withoutEnlargement := None; ro_withoutReduction := None;
     ro_fastShrinkOnLoad := None |}.

Definition widthOnlySize : AppleDeviceSize :=
  {| width := 640; height := 1136; padding := None; png := None;
     resizeOptions := Some widthOnly; darkResizeOptions := None |}.

Definition layeredConfig : AppleSplashScreens :=
  {| use_padding := None; use_resizeOptions := Some heightOnly;
     use_darkResizeOptions := None; use_linkMediaOptions := None;
     use_sizes := [widthOnlySize]; use_name := None; use_png := None |}.

(** A configuration with a preset-level padding and two descriptors, the
    second with a padding of its own. *)
Definition paddedConfig : AppleSplashScreens :=
  {| use_padding := Some (2 # 10)%Q; use_resizeOptions := None;
     use_darkResizeOptions := None; use_linkMediaOptions := None;
     use_sizes :=
       [bareSize 640 1136;
        {| width := 750; height := 1334; padding := Some (1 # 10)%Q;
           png := None; resizeOptions := None; darkResizeOptions := None |}];
     use_name := None; use_png := None |}.

(** The configuration of the design document's scenario: the single
    descriptor 640x1136, nothing else set. *)
Definition scenarioConfig : AppleSplashScreens :=
  bareConfig [bareSize 640 1136].

(** What the scenario looks at in an entry and the variant it was built
    from: orientation, colour scheme, pixel dimensions of the entry, and
    the padding and the background handed to the deferred producer. *)
Definition entrySummary (v : SplashScreenData) (e : AssetEntry)
    : bool * option bool * Z * Z * Q * option string :=
  (ssd_landscape v, ssd_dark v, e_width e, e_height e,
   call_padding (e_buffer e),
   ro_background (call_resizeOptions (e_buffer e))).

(** No [resolveInstructions] call among the events. *)
Definition noResolution (tr : list Event) : Prop :=
  Forall (λ ev, isResolveInstructions ev = false) tr.

(** The events of [run] up to and including the configuration load. *)
Definition preamble (ext : CliCollaborators) (cliOptions : option CliOptions)
    : list Event :=
  [Consola "log" ("Zero Config PWA Assets Generator v" +:+ version ext);
   Consola "start" "Preparing to generate PWA assets...";
   LoadConfig (cli_root (cliOptions ?? emptyCliOptions) ?? cwd ext)
     (cliOptions ?? emptyCliOptions)].

(** The images a run works on: the ones of the command line when there
    are any, otherwise the ones of the loaded configuration. *)
Definition imagesToUse (images : option (list string)) (config : UserConfig)
    : list string :=
  if bool_decide (length (images ?? []) ≠ 0%nat) then images ?? []
  else match cfg_images config with
       | Some (ManyImages l) => l
       | Some (OneImage p) => [p]
       | None => []
       end.

(** An [Async] computation built from the operations above only ever
    extends the trace; [extends m P] says so of [m] and adds that its
    result satisfies [P]. *)
Definition extends {A} (m : Async A) (P : Result A → Prop) : Prop :=
  ∀ tr, ∃ evs r, m tr = (tr ++ evs, r) ∧ P r.

(** The result is a value whenever the condition [C] holds. *)
Definition okIf {A} (C : Prop) (r : Result A) : Prop := C → ∃ a, r = Ok a.

(** ** Further notions used by the properties of the expander *)

(** The content of [sizesMap] once the callback has run over [sizes]:
    [sizesMap.set(size.width, size.height)] for every descriptor (for a
    skipped one the binding is already there). *)
Definition sizesMapAfter (sizesMap : gmap Z Z) (sizes : list AppleDeviceSize)
    : gmap Z Z :=
  fold_left (λ m size, <[width size := height size]> m) sizes sizesMap.

(** The height of the last descriptor of [sizes] that has width [w]. *)
Definition lastHeightFor (w : Z) (sizes : list AppleDeviceSize) : option Z :=
  height <$> last (filter (λ size, width size = w) sizes).

(** ** Reading the instructions object *)

(** [o[key]]. *)
Fixpoint obj_get {A} (key : string) (o : Obj A) : option A :=
  match o with
  | [] => None
  | (k, v) :: rest =>
      if bool_decide (k = key) then Some v else obj_get key rest
  end.

(** The entries one resolution assigns for a configuration, in order. *)
Definition resolvedEntries (lib : Collaborators) (image0 : Buffer)
    (imageAssets : ImageAssets) (use : AppleSplashScreens)
    : list (string * AssetEntry) :=
  splashEntries lib image0 imageAssets (resolveGiven lib use).

(** The last entry assigned under [key], if any. *)
Definition lastAssigned (key : string) (entries : list (string * AssetEntry))
    : option AssetEntry :=
  snd <$> last (filter (λ kv, kv.1 = key) entries).

(** A configuration whose second descriptor has compression options of
    its own. *)
Definition compressedConfig : AppleSplashScreens :=
  {| use_padding := None; use_resizeOptions := None;
     use_darkResizeOptions := None; use_linkMediaOptions := None;
     use_sizes :=
       [bareSize 640 1136;
        {| width := 750; height := 1334; padding := None;
           png := Some (mkPngOptions None (Some 6) None None (Some 80) None None None);
           resizeOptions := None; darkResizeOptions := None |}];
     use_name := None;
     use_png := Some (mkPngOptions None (Some 9) None None (Some 60) None None None) |}.

(** The entries a call assigns, whatever the configuration argument:
    none without a configuration. *)
Definition assignedEntries (lib : Collaborators) (image0 : Buffer)
    (imageAssets : ImageAssets) (useAppleSplashScreens : option AppleSplashScreens)
    : list (string * AssetEntry) :=
  match useAppleSplashScreens with
  | Some use => resolvedEntries lib image0 imageAssets use
  | None => []
  end.

(** An object in which every entry sits under its own URL. *)
Definition keyedByUrl (o : Obj AssetEntry) : Prop :=
  Forall (λ kv, e_url kv.2 = kv.1) o.

(** ** Further notions used by the properties of [run] *)

Definition isGenerateAssets (ev : Event) : bool :=
  match ev with GenerateAssets _ _ _ _ => true | _ => false end.

Definition isConsoleLog (ev : Event) : bool :=
  match ev with ConsoleLog _ => true | _ => false end.

(** [m] only extends the trace, and every event it adds satisfies [P]. *)
Definition emitsOnly {A} (P : Event → Prop) (m : Async A) : Prop :=
  ∀ tr, ∃ evs r, m tr = (tr ++ evs, r) ∧ Forall P evs.

(** The values [run] computes from the command line and the loaded
    configuration (lines 45 and 58-77). *)
Definition rootFor (ext : CliCollaborators) (cliOptions : option CliOptions)
    : string :=
  cli_root (cliOptions ?? emptyCliOptions) ?? cwd ext.

Definition logLevelFor (config : UserConfig) : string :=
  cfg_logLevel config ?? "info".

Definition overrideFor (cliOptions : option CliOptions) (config : UserConfig)
    : bool :=
  if bool_decide (cli_override (cliOptions ?? emptyCliOptions) = Some false)
  then false else cfg_overrideAssets config ?? true.

Definition manifestFor (cliOptions : option CliOptions) (config : UserConfig)
    : bool :=
  if bool_decide (cli_manifest (cliOptions ?? emptyCliOptions) = Some false)
  then false else cfg_manifestIconsEntry config ?? true.

(** The arguments of the [resolveInstructions] calls, one per image. *)
Definition callsFor (ext : CliCollaborators) (cliOptions : option CliOptions)
    (config : UserConfig) (preset : Preset) (images : option (list string))
    : list ResolveArgs :=
  map (resolveArgsOf ext (rootFor ext cliOptions) preset
         (cfg_headLinkOptions config)
         (bool_decide (cfg_headLinkOptions config ≫= hl_xhtml = Some true))
         (bool_decide (cfg_headLinkOptions config ≫= hl_includeId = Some true)))
      (imagesToUse images config).

(** The [generateAssets] call [run] makes for an instruction. *)
Definition generationOf (ext : CliCollaborators) (cliOptions : option CliOptions)
    (config : UserConfig) (instruction : ImageAssetsInstructions) : Event :=
  GenerateAssets instruction (overrideFor cliOptions config)
    (path_dirname ext (image instruction))
    (bool_decide (logLevelFor config ≠ "silent")).

(** The body of the loop of lines 96-130, as it stands inside [run]. *)
Definition generateFor (ext : CliCollaborators) (cliOptions : option CliOptions)
    (config : UserConfig) (instruction : ImageAssetsInstructions) : Async unit :=
  emit (Consola "start"
          ("Generating assets for " +:+ originalName instruction +:+ "...")) ;;
  emit (generationOf ext cliOptions config instruction) ;;
  let* _ := await (generateAssets ext instruction (overrideFor cliOptions config)
                     (path_dirname ext (image instruction))
                     (bool_decide (logLevelFor config ≠ "silent"))) in
  emit (Consola "ready"
          ("Assets generated for " +:+ originalName instruction)) ;;
  if bool_decide (logLevelFor config ≠ "silent") then
    (if bool_decide (length (generateHtmlMarkup ext instruction) ≠ 0%nat) then
       emit (Consola "start" "Generating Html Head Links...") ;;
       forEach (generateHtmlMarkup ext instruction)
         (λ link, emit (ConsoleLog link)) ;;
       emit (Consola "ready" "Html Head Links generated")
     else pure tt) ;;
    (if manifestFor cliOptions config then
       emit (Consola "start" "Generating PWA web manifest icons entry...") ;;
       emit (ConsoleLog (generateManifestIconsEntry ext instruction)) ;;
       emit (Consola "ready" "PWA web manifest icons entry generated")
     else pure tt)
  else pure tt.

(** Lines 92-132 of [run]: what follows the resolution, as it stands
    inside [run]. *)
Definition afterResolution (ext : CliCollaborators)
    (cliOptions : option CliOptions) (config : UserConfig)
    (images : option (list string))
    (instructions : list ImageAssetsInstructions) : Async unit :=
  emit (Consola "ready"
          "PWA assets ready to be generated, instructions resolved") ;;
  emit (Consola "start"
          ("Generating PWA assets from "
           +:+ String.concat ", " (imagesToUse images config)
           +:+ " image"
           +:+ (if bool_decide (1 < length (imagesToUse images config))%nat
                then "s" else ""))) ;;
  forEach instructions (generateFor ext cliOptions config) ;;
  emit (Consola "ready" "PWA assets generated").

(** The trace of a run up to the end of the resolution calls. *)
Definition resolutionTrace (ext : CliCollaborators)
    (cliOptions : option CliOptions) (config : UserConfig) (preset : Preset)
    (images : option (list string)) : list Event :=
  preamble ext cliOptions
  ++ Consola "start" "Resolving instructions..."
     :: map ResolveInstructions (callsFor ext cliOptions config preset images).

(** Collaborators whose configuration loader fails. *)
Definition brokenLoaderCli : CliCollaborators :=
  {| version := "0.2.6";
     cwd := "/work";
     path_resolve := λ root i, root +:+ "/" +:+ i;
     path_basename := λ name, name;
     path_dirname := λ name, "/work";
     loadConfig := λ _ _, Err (Foreign "cannot read pwa-assets.config.ts");
     resolveInstructions := λ args, Err (Foreign "unreachable");
     generateAssets := λ _ _ _ _, Ok tt;
     generateHtmlMarkup := λ _, [];
     generateManifestIconsEntry := λ _, "{}" |}.

(** Collaborators that cannot resolve the image [broken.svg], and cannot
    generate the assets of [locked.svg]. *)
Definition faultyCli (config : UserConfig) : CliCollaborators :=
  {| version := "0.2.6";
     cwd := "/work";
     path_resolve := λ root i, root +:+ "/" +:+ i;
     path_basename := λ name, name;
     path_dirname := λ name, "/work";
     loadConfig := λ _ _, Ok config;
     resolveInstructions := λ args,
       if bool_decide (ra_originalName args = "broken.svg")
       then Err (Foreign "cannot read broken.svg")
       else Ok {| image := ra_imageName args;
                  originalName := ra_originalName args;
                  favicon := []; transparent := []; maskable := [];
                  apple := []; appleSplashScreen := []; windows := [] |};
     generateAssets := λ instruction _ _ _,
       if bool_decide (originalName instruction = "locked.svg")
       then Err (Foreign "cannot write the assets of locked.svg")
       else Ok tt;
     generateHtmlMarkup := λ instruction, ["<link href='" +:+ originalName instruction +:+ "'>"];
     generateManifestIconsEntry := λ _, "{}" |}.

Definition silentConfig : UserConfig :=
  {| cfg_logLevel := Some "silent"; cfg_overrideAssets := Some true;
     cfg_preset := Some (BuiltIn minimal);
     cfg_images := Some (ManyImages ["logo.svg"; "mark.svg"]);
     cfg_headLinkOptions := None; cfg_manifestIconsEntry := None |}.

(** The instruction the stand-in collaborators resolve for an image of
    the working folder. *)
Definition plainInstruction (name : string) : ImageAssetsInstructions :=
  {| image := "/work/" +:+ name; originalName := name;
     favicon := []; transparent := []; maskable := []; apple := [];
     appleSplashScreen := []; windows := [] |}.

(** Three descriptors in which every width has one height: the third
    repeats the dimensions of the first. *)
Definition repeatedFirstSizes : list AppleDeviceSize :=
  [bareSize 320 480; bareSize 640 1136;
   {| width := 320; height := 480; padding := Some (1 # 10)%Q; png := None;
      resizeOptions := None; darkResizeOptions := None |}].

(** * Properties *)

(** ** The variant expander as a concatenation of groups *)

Section Expander.
Variable png0 : PngOptions.

Lemma variantsOf_light size :
  darkResizeOptions size = None →
  variantsOf png0 size =
    [portraitOf png0 None (resizeOptions size) size;
     landscapeOf png0 None (resizeOptions size ?? emptyResizeOptions) None size].
Proof.
  intros Hd. unfold variantsOf, expandStep.
  rewrite lookup_empty, bool_decide_eq_false_2 by done.
  rewrite Hd. reflexivity.
Qed.

Lemma variantsOf_dark size dro :
  darkResizeOptions size = Some dro →
  variantsOf png0 size =
    [portraitOf png0 (Some false) (resizeOptions size) size;
     landscapeOf png0 (Some false) (resizeOptions size ?? emptyResizeOptions)
       (Some dro) size;
     portraitOf png0 (Some true) (Some dro) size;
     landscapeOf png0 (Some true) dro None size].
Proof.
  intros Hd. unfold variantsOf, expandStep.
  rewrite lookup_empty, bool_decide_eq_false_2 by done.
  rewrite Hd. reflexivity.
Qed.

Lemma expandStep_skip sizesMap acc size :
  sizesMap !! width size = Some (height size) →
  expandStep png0 (sizesMap, acc) size = (sizesMap, acc).
Proof.
  intros H. unfold expandStep. by rewrite bool_decide_eq_true_2.
Qed.

Lemma expandStep_keep sizesMap acc size :
  sizesMap !! width size ≠ Some (height size) →
  expandStep png0 (sizesMap, acc) size =
    (<[width size := height size]> sizesMap, acc ++ variantsOf png0 size).
Proof.
  intros H. unfold variantsOf, expandStep.
  rewrite lookup_empty, !bool_decide_eq_false_2 by done.
  destruct (darkResizeOptions size); cbn [snd]; unfold push;
    rewrite <- ?app_assoc; reflexivity.
Qed.

Lemma expandFrom_groups sizes : ∀ sizesMap acc,
  (expandFrom png0 (sizesMap, acc) sizes).2 =
    acc ++ (keptFrom sizesMap sizes ≫= variantsOf png0).
Proof.
  unfold expandFrom.
  induction sizes as [|size rest IH]; intros sizesMap acc; cbn [fold_left keptFrom].
  - by rewrite app_nil_r.
  - case_bool_decide as Hdup.
    + rewrite expandStep_skip by done. apply IH.
    + rewrite expandStep_keep by done. rewrite IH.
      by rewrite bind_cons, app_assoc.
Qed.

Lemma splashScreensOf_groups sizes :
  splashScreensOf png0 sizes = keptOf sizes ≫= variantsOf png0.
Proof. unfold splashScreensOf. by rewrite expandFrom_groups. Qed.

(** A group is two variants, or four with a dark override. *)
Lemma variantsOf_length size :
  length (variantsOf png0 size) =
    if truthy (darkResizeOptions size) then 4%nat else 2%nat.
Proof.
  destruct (darkResizeOptions size) as [dro|] eqn:Hd.
  - by rewrite (variantsOf_dark _ dro).
  - by rewrite variantsOf_light.
Qed.

Lemma variantsOf_tags size :
  map (λ v, (declaredDims v, ssd_landscape v, ssd_dark v)) (variantsOf png0 size)
  = map (λ t, (dims size, t.1, t.2)) (groupOrder size).
Proof.
  unfold groupOrder.
  destruct (darkResizeOptions size) as [dro|] eqn:Hd.
  - by rewrite (variantsOf_dark _ dro).
  - by rewrite variantsOf_light.
Qed.

End Expander.

Lemma keptFrom_sublist sizes : ∀ sizesMap, keptFrom sizesMap sizes `sublist_of` sizes.
Proof.
  induction sizes as [|size rest IH]; intros sizesMap; cbn [keptFrom].
  - done.
  - case_bool_decide.
    + by apply sublist_cons.
    + by apply sublist_skip.
Qed.

(** The number of variants, counted over the descriptors the callback
    expands. *)
Lemma splashScreensOf_length png0 sizes :
  length (splashScreensOf png0 sizes) =
    (4 * length (filter (λ d, is_Some (darkResizeOptions d)) (keptOf sizes))
     + 2 * length (filter (λ d, ¬ is_Some (darkResizeOptions d)) (keptOf sizes)))%nat.
Proof.
  rewrite splashScreensOf_groups.
  induction (keptOf sizes) as [|size kept IH]; [done|].
  rewrite bind_cons, length_app, IH, variantsOf_length, !filter_cons.
  destruct (darkResizeOptions size) as [dro|]; cbn [truthy].
  - rewrite decide_True by eauto.
    rewrite decide_False by (intros H; apply H; eauto).
    cbn [length]. lia.
  - rewrite decide_False by (intros [? ?]; done).
    rewrite decide_True by (intros [? ?]; done).
    cbn [length]. lia.
Qed.

(** *** When the width-keyed map does deduplicate by pair

    The map remembers one height per width.  As long as no width is
    declared with two different heights, it is as good as a set of pairs
    and the expander keeps exactly the first descriptor of every pair. *)
Lemma keptFrom_dedupByDimsFrom sizes : ∀ (sizesMap : gmap Z Z) (seen : gset (Z * Z)),
  (∀ w h, sizesMap !! w = Some h ↔ (w, h) ∈ seen) →
  (∀ w h size, (w, h) ∈ seen → size ∈ sizes → width size = w → height size = h) →
  (∀ a b, a ∈ sizes → b ∈ sizes → width a = width b → height a = height b) →
  keptFrom sizesMap sizes = dedupByDimsFrom seen sizes.
Proof.
  induction sizes as [|size rest IH]; intros sizesMap seen Hrel Hseen Hfun;
    cbn [keptFrom dedupByDimsFrom]; [done|].
  destruct (decide (sizesMap !! width size = Some (height size))) as [Hin|Hin].
  - rewrite (bool_decide_eq_true_2 _ Hin).
    rewrite bool_decide_eq_true_2 by (by apply Hrel).
    apply IH; [done| |].
    + intros w h s ? ?. apply Hseen; [done|]. by apply list_elem_of_further.
    + intros a b ? ?. apply Hfun; by apply list_elem_of_further.
  - rewrite (bool_decide_eq_false_2 _ Hin).
    rewrite bool_decide_eq_false_2 by (unfold dims; by rewrite <- Hrel).
    f_equal. apply IH.
    + intros w h. unfold dims. rewrite elem_of_union, elem_of_singleton.
      destruct (decide (w = width size)) as [->|Hne].
      * rewrite lookup_insert_eq. split.
        -- intros [= <-]. by left.
        -- intros [[= ->]|Hs]; [done|].
           f_equal. eapply Hseen; [exact Hs| |done].
           apply list_elem_of_here.
      * rewrite lookup_insert_ne by done. rewrite Hrel. split; [by right|].
        intros [[= -> ->]|Hs]; done.
    + intros w h s. unfold dims. rewrite elem_of_union, elem_of_singleton.
      intros [[= -> ->]|Hs] Hs' Hw.
      * symmetry. apply Hfun; [apply list_elem_of_here|by apply list_elem_of_further|done].
      * eapply Hseen; [exact Hs|by apply list_elem_of_further|done].
    + intros a b ? ?. apply Hfun; by apply list_elem_of_further.
Qed.

Lemma keptOf_dedupByDims sizes :
  (∀ a b, a ∈ sizes → b ∈ sizes → width a = width b → height a = height b) →
  keptOf sizes = dedupByDims sizes.
Proof.
  intros Hfun. apply keptFrom_dedupByDimsFrom; [| |done].
  - intros w h. rewrite lookup_empty. set_solver.
  - set_solver.
Qed.

(** The example of the design document: of two adjacent descriptors with
    the same dimensions the second is dropped, whatever else it sets. *)
Example adjacent_duplicate_dropped png0 :
  splashScreensOf png0 adjacentDuplicates = variantsOf png0 (bareSize 320 480).
Proof.
  rewrite splashScreensOf_groups. unfold keptOf, adjacentDuplicates.
  cbn [keptFrom bareSize width height].
  rewrite lookup_empty, bool_decide_eq_false_2 by done.
  rewrite lookup_insert_eq, bool_decide_eq_true_2 by done.
  rewrite bind_cons. apply app_nil_r.
Qed.

(** ** C1: deduplication by declared dimensions *)

(** C1.  The design document requires that a descriptor whose declared
    (width, height) equals a pair already expanded is always skipped.  On
    three descriptors 1242x2208, 1242x2688, 1242x2208 (interleavedSizes)
    the callback expands all three: when
    the third arrives, [sizesMap] holds 2688 for the width 1242, the test
    [sizesMap.get(size.width) === size.height] fails, and both of its
    variants are emitted a second time, with the declared dimensions of
    the first.  The set-of-pairs policy keeps the first two only. *)
Theorem dedup_misses_interleaved_duplicate :
  keptOf interleavedSizes = interleavedSizes
  ∧ dedupByDims interleavedSizes = [bareSize 1242 2208; bareSize 1242 2688]
  ∧ map (λ v, (declaredDims v, ssd_landscape v))
        (splashScreensOf emptyPngOptions interleavedSizes)
    = [((1242, 2208), false); ((1242, 2208), true);
       ((1242, 2688), false); ((1242, 2688), true);
       ((1242, 2208), false); ((1242, 2208), true)].
Proof. by vm_compute. Qed.

(** What the missed duplicate does to the instructions: under a naming
    function that names an entry by orientation, colour scheme and
    dimensions, the repeated descriptor is assigned to the URLs of the
    first one, and its padding (0.1) replaces the first one's (0.3). *)
Example interleaved_duplicate_overwrites_first :
  map (λ kv, (kv.1, call_padding (e_buffer kv.2)))
      (filter (λ kv, e_width kv.2 = 1242 ∧ e_height kv.2 = 2208)
         (appleSplashScreen
            (resolveAppleSplashScreensInstructions sampleLib [] sampleImageAssets
               emptyInstructions (Some (bareConfig interleavedPaddedSizes))).1))
  = [("/apple-splash-portrait-light-1242x2208.png", (1 # 10)%Q);
     ("/apple-splash-portrait-dark-1242x2208.png", (1 # 10)%Q)].
Proof. by vm_compute. Qed.

(** ** C2: the number of variants *)

(** C2.  The design document counts four or two variants per descriptor
    that is distinct by declared dimensions.  On the three descriptors
    1242x2208, 1242x2688, 1242x2208 (interleavedSizes), none
    with a dark override, that is 2 x 2 = 4; the expander emits 6, because
    the repeated 1242x2208 descriptor is expanded again. *)
Theorem variant_count_exceeds_distinct_dimensions :
  specVariantCount interleavedSizes = 4%nat
  ∧ length (splashScreensOf emptyPngOptions interleavedSizes) = 6%nat
  ∧ Forall (λ v, ssd_dark v = None)
           (splashScreensOf emptyPngOptions interleavedSizes).
Proof.
  split; [by vm_compute|]. split; [by vm_compute|].
  rewrite splashScreensOf_groups.
  replace (keptOf interleavedSizes) with interleavedSizes by (by vm_compute).
  unfold interleavedSizes. rewrite !bind_cons.
  rewrite !variantsOf_light by done.
  repeat constructor.
Qed.

(** Where no width is declared with two heights the count of the design
    document is the expander's. *)
Lemma variant_count_when_widths_determine_heights png0 sizes :
  (∀ a b, a ∈ sizes → b ∈ sizes → width a = width b → height a = height b) →
  length (splashScreensOf png0 sizes) = specVariantCount sizes.
Proof.
  intros Hfun. rewrite splashScreensOf_length. unfold specVariantCount.
  by rewrite keptOf_dedupByDims.
Qed.

(** ** C5: the landscape variant is the transposed portrait variant *)

Lemma transposes_landscapeOf png0 dark ro darkRo size oro :
  oro ?? emptyResizeOptions = ro →
  oro = (if truthyBool dark then darkResizeOptions size else resizeOptions size) →
  transposes size (portraitOf png0 dark oro size)
                  (landscapeOf png0 dark ro darkRo size).
Proof.
  intros Hro Horo. unfold transposes, sameOtherFields.
  cbn [portraitOf landscapeOf ssd_size ssd_landscape ssd_dark ssd_resizeOptions
       width height resizeOptions].
  repeat split; try done.
  eexists. repeat split; rewrite Hro; reflexivity.
Qed.

(** C5.  Every landscape variant the expander emits stands right after the
    portrait variant of the same descriptor and colour scheme; its size
    has the descriptor's width and height exchanged, and its resize
    options are the portrait variant's (the light ones, or the dark ones
    for a dark variant; an absent record read as the empty one) with
    [width] and [height] exchanged and every other property unchanged. *)
Theorem landscape_variant_transposes_portrait png0 sizes l :
  l ∈ splashScreensOf png0 sizes →
  ssd_landscape l = true →
  ∃ size p before after,
    size ∈ sizes
    ∧ splashScreensOf png0 sizes = before ++ p :: l :: after
    ∧ transposes size p l.
Proof.
  intros Hl Hland. rewrite splashScreensOf_groups in Hl |- *.
  apply list_elem_of_bind in Hl as (size & Hlsize & Hsize).
  assert (size ∈ sizes) as Hin
    by (eapply elem_of_sublist; [exact Hsize|apply keptFrom_sublist]).
  apply list_elem_of_split in Hsize as (k1 & k2 & ->).
  rewrite bind_app, bind_cons.
  exists size.
  destruct (darkResizeOptions size) as [dro|] eqn:Hd.
  - rewrite (variantsOf_dark _ _ dro Hd) in Hlsize |- *.
    rewrite !elem_of_cons, elem_of_nil in Hlsize.
    destruct Hlsize as [->|[->|[->|[->|[]]]]]; try discriminate Hland.
    + eexists _, (k1 ≫= variantsOf png0), _. split; [done|]. split.
      * cbn [app]. reflexivity.
      * by apply transposes_landscapeOf.
    + eexists _, ((k1 ≫= variantsOf png0) ++ [_; _]), _. split; [done|]. split.
      * rewrite <- app_assoc. cbn [app]. reflexivity.
      * apply transposes_landscapeOf; [done|]. by rewrite Hd.
  - rewrite (variantsOf_light _ _ Hd) in Hlsize |- *.
    rewrite !elem_of_cons, elem_of_nil in Hlsize.
    destruct Hlsize as [->|[->|[]]]; try discriminate Hland.
    eexists _, (k1 ≫= variantsOf png0), _. split; [done|]. split.
    + cbn [app]. reflexivity.
    + by apply transposes_landscapeOf.
Qed.

Lemma landscape_variant_transposes_portrait_witness :
  ∃ size p before after,
    size ∈ [sampleDarkSize]
    ∧ splashScreensOf emptyPngOptions [sampleDarkSize]
      = before ++ p
          :: landscapeOf emptyPngOptions (Some true)
               (darkResizeOptions sampleDarkSize ?? emptyResizeOptions)
               None sampleDarkSize
          :: after
    ∧ transposes size p
        (landscapeOf emptyPngOptions (Some true)
           (darkResizeOptions sampleDarkSize ?? emptyResizeOptions)
           None sampleDarkSize).
Proof.
  apply (landscape_variant_transposes_portrait emptyPngOptions [sampleDarkSize]).
  - vm_compute. do 3 apply list_elem_of_further. apply list_elem_of_here.
  - reflexivity.
Defined.

(** ** C6: the order of emission *)

(** C6.  The emitted variants are the groups of the descriptors the
    callback expands, which come in the order of the input list; within a
    group the order is portrait-light, landscape-light and, when the
    descriptor has a dark resize override, portrait-dark, landscape-dark. *)
Theorem variants_emitted_in_group_order png0 sizes :
  keptOf sizes `sublist_of` sizes
  ∧ splashScreensOf png0 sizes = keptOf sizes ≫= variantsOf png0
  ∧ map (λ v, (declaredDims v, ssd_landscape v, ssd_dark v))
        (splashScreensOf png0 sizes)
    = keptOf sizes ≫= λ size, map (λ t, (dims size, t.1, t.2)) (groupOrder size).
Proof.
  split; [apply keptFrom_sublist|]. split; [apply splashScreensOf_groups|].
  rewrite splashScreensOf_groups.
  induction (keptOf sizes) as [|size kept IH]; [done|].
  rewrite !bind_cons, map_app, IH. f_equal. apply variantsOf_tags.
Qed.

(** ** The option cascader *)

Lemma r_sizes_resolveGiven lib use :
  r_sizes (resolveGiven lib use) = map (cascadeSize lib use) (use_sizes use).
Proof. reflexivity. Qed.

Lemma resolveAppleSplashScreens_Some lib use :
  resolveAppleSplashScreens lib (Some use) = Some (resolveGiven lib use).
Proof. reflexivity. Qed.

(** Back-filling leaves the declared dimensions alone, so the duplicate
    check decides the same way before and after it. *)
Lemma keptFrom_backfill p g r d sizes : ∀ sizesMap,
  keptFrom sizesMap (map (backfill p g r d) sizes)
  = map (backfill p g r d) (keptFrom sizesMap sizes).
Proof.
  induction sizes as [|size rest IH]; intros sizesMap; [done|].
  cbn [map keptFrom backfill width height].
  case_bool_decide; cbn [map]; by rewrite IH.
Qed.

Lemma emittedVariants_groups lib use :
  emittedVariants lib use =
    keptOf (use_sizes use) ≫=
      λ size, variantsOf (r_png (resolveGiven lib use)) (cascadeSize lib use size).
Proof.
  unfold emittedVariants. rewrite splashScreensOf_groups, r_sizes_resolveGiven.
  unfold keptOf, cascadeSize. rewrite keptFrom_backfill.
  generalize (keptFrom ∅ (use_sizes use)) as kept.
  induction kept as [|size kept IH]; [done|].
  cbn [map]. by rewrite !bind_cons, IH.
Qed.

(** After the cascade every descriptor has a dark resize override. *)
Lemma cascadeSize_dark lib use size :
  is_Some (darkResizeOptions (cascadeSize lib use size)).
Proof.
  unfold cascadeSize, backfill. cbn [darkResizeOptions].
  destruct (darkResizeOptions size); eauto.
Qed.

(** ** C3: how the layers combine *)

(** C3, as the code has it.  For each of the four option kinds the
    cascader keeps a per-size value whole when the descriptor sets one,
    and otherwise takes the preset-level value as the defaults helpers
    complete it ([createResizeOptions] for the light and the dark resize
    options, [createPngCompressionOptions], and the preset-level padding
    or 0.3): between the per-size layer and the layers below it the
    fallback is record by record, and a per-size record is handed on
    exactly as the descriptor gave it. *)
Theorem cascade_replaces_whole_records lib use :
  r_sizes <$> resolveAppleSplashScreens lib (Some use) =
    Some (map (λ size,
      {| width := width size;
         height := height size;
         padding := Some (padding size ?? (use_padding use ?? (3 # 10)%Q));
         png := Some (png size
                  ?? createPngCompressionOptions lib
                       (use_png use ?? emptyPngOptions));
         resizeOptions := Some (resizeOptions size
                  ?? createResizeOptions lib false
                       (use_resizeOptions use ?? emptyResizeOptions));
         darkResizeOptions := Some (darkResizeOptions size
                  ?? createResizeOptions lib true
                       (use_darkResizeOptions use ?? emptyResizeOptions)) |})
      (use_sizes use))
  ∧ ∀ size o, size ∈ use_sizes use → resizeOptions size = Some o →
      cascadeSize lib use size ∈ r_sizes (resolveGiven lib use)
      ∧ resizeOptions (cascadeSize lib use size) = Some o.
Proof.
  split.
  - cbn [resolveAppleSplashScreens fmap option_fmap option_map].
    rewrite r_sizes_resolveGiven. f_equal. apply map_ext. intros size.
    unfold cascadeSize, backfill.
    destruct (padding size), (png size), (resizeOptions size),
      (darkResizeOptions size); reflexivity.
  - intros size o Hin Ho. split.
    + rewrite r_sizes_resolveGiven. apply list_elem_of_fmap. eauto.
    + unfold cascadeSize, backfill. cbn [resizeOptions]. by rewrite Ho.
Qed.

Lemma cascade_replaces_whole_records_witness :
  r_sizes <$> resolveAppleSplashScreens sampleLib (Some layeredConfig) =
    Some [ {| width := 640; height := 1136; padding := Some (3 # 10)%Q;
              png := Some emptyPngOptions;
              resizeOptions := Some widthOnly;
              darkResizeOptions := Some (globalResizeDefaults true) |} ]
  ∧ cascadeSize sampleLib layeredConfig widthOnlySize
      ∈ r_sizes (resolveGiven sampleLib layeredConfig)
  ∧ resizeOptions (cascadeSize sampleLib layeredConfig widthOnlySize)
    = Some widthOnly.
Proof.
  split.
  - exact (proj1 (cascade_replaces_whole_records sampleLib layeredConfig)).
  - apply (proj2 (cascade_replaces_whole_records sampleLib layeredConfig)
             widthOnlySize widthOnly).
    + apply list_elem_of_here.
    + reflexivity.
Defined.

(** C3, as the design document states it, fails: with a preset-level record that sets
    [height] to 200 and a per-size record that sets only [width], the
    field-by-field cascade would give height 200 (and the global white
    background); the cascader hands on the per-size record unchanged,
    with no height and no background. *)
Lemma cascade_field_by_field_counterexample :
  specCascadeResizeOptions (globalResizeDefaults false)
    (use_resizeOptions layeredConfig) (resizeOptions widthOnlySize)
  = {| ro_width := Some 100; ro_height := Some 200; ro_fit := None;
       ro_position := None; ro_background := Some "white"; ro_kernel := None;
       ro_withoutEnlargement := None; ro_withoutReduction := None;
       ro_fastShrinkOnLoad := None |}
  ∧ map resizeOptions (r_sizes (resolveGiven sampleLib layeredConfig))
    = [Some widthOnly]
  ∧ map resizeOptions (r_sizes (resolveGiven sampleLib layeredConfig))
    ≠ [Some (specCascadeResizeOptions (globalResizeDefaults false)
               (use_resizeOptions layeredConfig) (resizeOptions widthOnlySize))].
Proof. split; [reflexivity|]. split; [reflexivity|]. discriminate. Qed.

(** ** C8: the padding of a variant *)

Lemma variantsOf_padding png0 size v :
  v ∈ variantsOf png0 size → ssd_padding v = padding size ?? (3 # 10)%Q.
Proof.
  destruct (darkResizeOptions size) as [dro|] eqn:Hd.
  - rewrite (variantsOf_dark _ _ dro Hd).
    rewrite !elem_of_cons, elem_of_nil. intros [->|[->|[->|[->|[]]]]]; reflexivity.
  - rewrite (variantsOf_light _ _ Hd).
    rewrite !elem_of_cons, elem_of_nil. intros [->|[->|[]]]; reflexivity.
Qed.

(** C8.  Every variant a resolution emits belongs to the group of one
    descriptor of the configuration, and its padding is that descriptor's
    own padding when it sets one, otherwise the configuration's padding
    when it sets one, otherwise 0.3. *)
Theorem variant_padding_cascade lib use v :
  v ∈ emittedVariants lib use →
  ∃ size,
    size ∈ use_sizes use
    ∧ v ∈ variantsOf (r_png (resolveGiven lib use)) (cascadeSize lib use size)
    ∧ ssd_padding v =
        match padding size with
        | Some perSize => perSize
        | None =>
            match use_padding use with
            | Some presetLevel => presetLevel
            | None => (3 # 10)%Q
            end
        end.
Proof.
  rewrite emittedVariants_groups.
  intros (size & Hv & Hsize)%list_elem_of_bind.
  exists size. split; [|split; [done|]].
  - eapply elem_of_sublist; [exact Hsize|apply keptFrom_sublist].
  - rewrite (variantsOf_padding _ _ _ Hv).
    unfold cascadeSize, backfill. cbn [padding].
    destruct (padding size), (use_padding use); reflexivity.
Qed.

Lemma variant_padding_cascade_witness :
  ∃ size,
    size ∈ use_sizes paddedConfig
    ∧ portraitOf emptyPngOptions (Some true) (Some (globalResizeDefaults true))
        (cascadeSize sampleLib paddedConfig (bareSize 640 1136))
      ∈ variantsOf (r_png (resolveGiven sampleLib paddedConfig))
          (cascadeSize sampleLib paddedConfig size)
    ∧ ssd_padding
        (portraitOf emptyPngOptions (Some true) (Some (globalResizeDefaults true))
           (cascadeSize sampleLib paddedConfig (bareSize 640 1136)))
      = match padding size with
        | Some perSize => perSize
        | None =>
            match use_padding paddedConfig with
            | Some presetLevel => presetLevel
            | None => (3 # 10)%Q
            end
        end.
Proof.
  apply (variant_padding_cascade sampleLib paddedConfig).
  vm_compute. do 2 apply list_elem_of_further. apply list_elem_of_here.
Defined.

(** ** C7: the background handed to the producer *)

(** C7.  For every emitted variant, in order, the resize options of the
    entry's deferred producer carry the background of the variant's resize
    options when these set one, and otherwise "black" for a dark variant
    ([dark = true]) and "white" for any other. *)
Theorem producer_background lib image0 imageAssets appleSplashScreens :
  Forall2
    (λ v kv,
       ro_background (call_resizeOptions (e_buffer kv.2)) =
         Some match ssd_resizeOptions v ≫= ro_background with
              | Some background => background
              | None =>
                  if bool_decide (ssd_dark v = Some true) then "black"
                  else "white"
              end)
    (splashScreensOf (r_png appleSplashScreens) (r_sizes appleSplashScreens))
    (splashEntries lib image0 imageAssets appleSplashScreens).
Proof.
  unfold splashEntries.
  induction (splashScreensOf _ _) as [|v variants IH]; constructor; [|exact IH].
  cbn [entryOf snd e_buffer call_resizeOptions producerResizeOptions ro_background].
  do 2 f_equal.
  destruct (ssd_resizeOptions v ≫= ro_background); [done|].
  cbn [nullish]. by destruct (ssd_dark v) as [[]|].
Qed.

(** ** The instructions object *)

Lemma obj_set_fresh {A} key (value : A) o :
  key ∉ obj_keys o → obj_set key value o = o ++ [(key, value)].
Proof.
  induction o as [|[k v] rest IH]; cbn [obj_set obj_keys map fst app]; [done|].
  rewrite not_elem_of_cons. intros [Hne Hrest].
  rewrite bool_decide_eq_false_2 by done. by rewrite IH.
Qed.

(** Entries with pairwise different keys, none of them present yet, are
    added at the end in the order of assignment. *)
Lemma assignAll_fresh entries : ∀ o,
  NoDup (obj_keys o ++ map fst entries) → assignAll entries o = o ++ entries.
Proof.
  unfold assignAll.
  induction entries as [|[k e] entries IH]; intros o Hnd; cbn [fold_left map fst].
  - by rewrite app_nil_r.
  - cbn [map fst] in Hnd.
    rewrite obj_set_fresh.
    + rewrite IH; [by rewrite <- app_assoc|].
      unfold obj_keys. rewrite map_app. cbn [map fst].
      by rewrite <- app_assoc.
    + apply NoDup_app in Hnd as (_ & Hdisj & _).
      intros Hk. apply (Hdisj _ Hk). apply list_elem_of_here.
Qed.

(** ** C10: the frame of the resolution *)

(** C10.  Whatever the arguments, the resolution leaves [image],
    [originalName] and every category other than [appleSplashScreen] as
    they were; without a configuration, or with one whose [sizes] is
    empty, it leaves the whole instructions object as it was. *)
Theorem resolution_touches_only_appleSplashScreen lib image0 imageAssets instructions :
  (∀ useAppleSplashScreens,
     let after :=
       (resolveAppleSplashScreensInstructions lib image0 imageAssets
          instructions useAppleSplashScreens).1 in
     image after = image instructions
     ∧ originalName after = originalName instructions
     ∧ favicon after = favicon instructions
     ∧ transparent after = transparent instructions
     ∧ maskable after = maskable instructions
     ∧ apple after = apple instructions
     ∧ windows after = windows instructions)
  ∧ (resolveAppleSplashScreensInstructions lib image0 imageAssets
       instructions None).1 = instructions
  ∧ (∀ padding0 resizeOptions0 darkResizeOptions0 linkMediaOptions0 name0 png0,
       (resolveAppleSplashScreensInstructions lib image0 imageAssets
          instructions
          (Some {| use_padding := padding0;
                   use_resizeOptions := resizeOptions0;
                   use_darkResizeOptions := darkResizeOptions0;
                   use_linkMediaOptions := linkMediaOptions0;
                   use_sizes := [];
                   use_name := name0;
                   use_png := png0 |})).1 = instructions).
Proof.
  split; [|split].
  - intros [use|]; cbn zeta; unfold resolveAppleSplashScreensInstructions;
      cbn [resolveAppleSplashScreens]; [|done].
    case_bool_decide; cbn [fst]; [done|].
    by destruct instructions.
  - reflexivity.
  - reflexivity.
Qed.

(** ** C4: the single-descriptor scenario *)

Lemma keptOf_singleton size : keptOf [size] = [size].
Proof.
  unfold keptOf. cbn [keptFrom].
  by rewrite lookup_empty, bool_decide_eq_false_2.
Qed.

(** C4, as the code has it.  For the single descriptor 640x1136 with
    nothing else set, the cascader first back-fills the descriptor's dark
    resize options with the default ones, so the expander emits four
    variants and the resolution assigns four entries, in this order: light
    portrait 640x1136, light landscape 1136x640, dark portrait 640x1136,
    dark landscape 1136x640, with [dark] false, false, true, true.  Each
    has padding 0.3.  The background handed to the producer is the one of
    the default resize options of its colour scheme, and where these leave
    it unset, "white" for the light and "black" for the dark entries.
    When the category starts empty and the naming function gives the four
    variants different names, these four entries are the whole category. *)
Theorem scenario_yields_four_entries lib image0 imageAssets instructions :
  appleSplashScreen instructions = [] →
  NoDup (map fst (splashEntries lib image0 imageAssets
                    (resolveGiven lib scenarioConfig))) →
  let resolved := resolveGiven lib scenarioConfig in
  let lightBackground :=
    ro_background (createResizeOptions lib false emptyResizeOptions) ?? "white" in
  let darkBackground :=
    ro_background (createResizeOptions lib true emptyResizeOptions) ?? "black" in
  appleSplashScreen
    (resolveAppleSplashScreensInstructions lib image0 imageAssets instructions
       (Some scenarioConfig)).1
  = map (entryOf lib image0 imageAssets resolved)
        (emittedVariants lib scenarioConfig)
  ∧ map (λ v, entrySummary v (entryOf lib image0 imageAssets resolved v).2)
        (emittedVariants lib scenarioConfig)
    = [(false, Some false, 640, 1136, (3 # 10)%Q, Some lightBackground);
       (true, Some false, 1136, 640, (3 # 10)%Q, Some lightBackground);
       (false, Some true, 640, 1136, (3 # 10)%Q, Some darkBackground);
       (true, Some true, 1136, 640, (3 # 10)%Q, Some darkBackground)].
Proof.
  intros Hempty Hnd resolved lightBackground darkBackground. split.
  - unfold resolveAppleSplashScreensInstructions.
    cbn [resolveAppleSplashScreens].
    rewrite bool_decide_eq_false_2 by (cbn; lia).
    cbn [fst set_appleSplashScreen appleSplashScreen].
    rewrite Hempty, assignAll_fresh by (cbn [obj_keys map app]; exact Hnd).
    reflexivity.
  - rewrite emittedVariants_groups.
    change (use_sizes scenarioConfig) with [bareSize 640 1136].
    rewrite keptOf_singleton, bind_cons.
    rewrite (variantsOf_dark _ _
               (createResizeOptions lib true emptyResizeOptions))
      by reflexivity.
    reflexivity.
Qed.

Lemma scenario_yields_four_entries_witness :
  appleSplashScreen
    (resolveAppleSplashScreensInstructions sampleLib [] sampleImageAssets
       emptyInstructions (Some scenarioConfig)).1
  = map (entryOf sampleLib [] sampleImageAssets
           (resolveGiven sampleLib scenarioConfig))
        (emittedVariants sampleLib scenarioConfig)
  ∧ map (λ v, entrySummary v
                (entryOf sampleLib [] sampleImageAssets
                   (resolveGiven sampleLib scenarioConfig) v).2)
        (emittedVariants sampleLib scenarioConfig)
    = [(false, Some false, 640, 1136, (3 # 10)%Q, Some "white");
       (true, Some false, 1136, 640, (3 # 10)%Q, Some "white");
       (false, Some true, 640, 1136, (3 # 10)%Q, Some "black");
       (true, Some true, 1136, 640, (3 # 10)%Q, Some "black")].
Proof.
  apply (scenario_yields_four_entries sampleLib [] sampleImageAssets
           emptyInstructions).
  - reflexivity.
  - match goal with |- ?nodup => apply (bool_decide_unpack nodup) end.
    vm_compute. exact I.
Defined.

(** C4, as the design document states it, fails: the resolution of the scenario leaves
    four entries in the category, not two, the dark pair among them. *)
Lemma scenario_two_entries_counterexample :
  length (appleSplashScreen
            (resolveAppleSplashScreensInstructions sampleLib [] sampleImageAssets
               emptyInstructions (Some scenarioConfig)).1) ≠ 2%nat
  ∧ obj_keys (appleSplashScreen
                (resolveAppleSplashScreensInstructions sampleLib []
                   sampleImageAssets emptyInstructions (Some scenarioConfig)).1)
    = ["/apple-splash-portrait-light-640x1136.png";
       "/apple-splash-landscape-light-1136x640.png";
       "/apple-splash-portrait-dark-640x1136.png";
       "/apple-splash-landscape-dark-1136x640.png"].
Proof. split; [by vm_compute|by vm_compute]. Qed.

(** ** C9: configuration errors of [run] *)

Lemma forEach_emit {A} (f : A → Event) l : ∀ tr,
  forEach l (λ x, emit (f x)) tr = (tr ++ map f l, Ok tt).
Proof.
  induction l as [|x l IH]; intros tr; cbn [forEach map].
  - unfold pure. by rewrite app_nil_r.
  - unfold andThen, emit at 1. rewrite IH. by rewrite <- app_assoc.
Qed.

Lemma forEach_ok {A} (body : A → Async unit) l :
  (∀ x tr, ∃ evs, body x tr = (tr ++ evs, Ok tt)) →
  ∀ tr, ∃ evs, forEach l body tr = (tr ++ evs, Ok tt).
Proof.
  intros Hbody. induction l as [|x l IH]; intros tr; cbn [forEach].
  - exists []. unfold pure. by rewrite app_nil_r.
  - unfold andThen. destruct (Hbody x tr) as [evs1 ->].
    destruct (IH (tr ++ evs1)) as [evs2 ->].
    exists (evs1 ++ evs2). by rewrite app_assoc.
Qed.

Lemma collect_ok {A B} (f : A → Result B) l :
  (∀ x, ∃ b, f x = Ok b) → ∃ bs, collect (map f l) = Ok bs.
Proof.
  intros Hf. induction l as [|x l [bs IH]]; cbn [map collect]; [eauto|].
  destruct (Hf x) as [b ->]. rewrite IH. eauto.
Qed.

Lemma run_without_preset ext images cliOptions config :
  loadConfig ext (cli_root (cliOptions ?? emptyCliOptions) ?? cwd ext)
    (cliOptions ?? emptyCliOptions) = Ok config →
  cfg_preset config = None →
  run ext images cliOptions [] = (preamble ext cliOptions, Err (JsError "No preset found")).
Proof.
  intros Hload Hpreset. unfold run, andThen, emit, await, throw.
  cbn [app]. rewrite Hload, Hpreset. reflexivity.
Qed.

Lemma run_without_images ext images cliOptions config preset :
  loadConfig ext (cli_root (cliOptions ?? emptyCliOptions) ?? cwd ext)
    (cliOptions ?? emptyCliOptions) = Ok config →
  cfg_preset config = Some preset →
  length (images ?? []) = 0%nat →
  imagesLength (cfg_images config) = 0%nat →
  run ext images cliOptions [] =
    (preamble ext cliOptions, Err (JsError "No images provided")).
Proof.
  intros Hload Hpreset Hcli Hcfg. unfold run, andThen, emit, await, throw.
  cbn [app]. rewrite Hload, Hpreset.
  rewrite (bool_decide_eq_false_2 (length (images ?? []) ≠ 0%nat)) by lia.
  rewrite bool_decide_eq_true_2 by done. reflexivity.
Qed.

Section AsyncTraces.
Context {C : Prop}.

Lemma extends_pure {A} (a : A) : extends (pure a) (okIf C).
Proof. intros tr. exists [], (Ok a). rewrite app_nil_r. split; [done|]. intros _. eauto. Qed.

Lemma extends_emit ev : extends (emit ev) (okIf C).
Proof. intros tr. exists [ev], (Ok tt). split; [done|]. intros _. eauto. Qed.

Lemma extends_await {A} (r : Result A) : okIf C r → extends (await r) (okIf C).
Proof. intros Hr tr. exists [], r. by rewrite app_nil_r. Qed.

Lemma extends_andThen {A B} (m : Async A) (k : A → Async B) :
  extends m (okIf C) → (∀ a, extends (k a) (okIf C)) →
  extends (andThen m k) (okIf C).
Proof.
  intros Hm Hk tr. unfold andThen.
  destruct (Hm tr) as (evs & [a|e] & -> & Hr).
  - destruct (Hk a (tr ++ evs)) as (evs' & r' & -> & Hr').
    exists (evs ++ evs'), r'. by rewrite app_assoc.
  - exists evs, (Err e). split; [done|].
    intros HC. by destruct (Hr HC).
Qed.

Lemma extends_forEach {A} (body : A → Async unit) l :
  (∀ x, extends (body x) (okIf C)) → extends (forEach l body) (okIf C).
Proof.
  intros Hbody. induction l as [|x l IH]; cbn [forEach].
  - apply extends_pure.
  - apply extends_andThen; [apply Hbody|]. intros _. exact IH.
Qed.

Lemma extends_if {A} (b : bool) (m1 m2 : Async A) :
  extends m1 (okIf C) → extends m2 (okIf C) →
  extends (if b then m1 else m2) (okIf C).
Proof. by destruct b. Qed.
End AsyncTraces.

Lemma run_with_images ext images cliOptions config preset :
  loadConfig ext (cli_root (cliOptions ?? emptyCliOptions) ?? cwd ext)
    (cliOptions ?? emptyCliOptions) = Ok config →
  cfg_preset config = Some preset →
  length (images ?? []) ≠ 0%nat ∨ imagesLength (cfg_images config) ≠ 0%nat →
  imagesToUse images config ≠ []
  ∧ ∃ rest result,
      run ext images cliOptions [] =
        (preamble ext cliOptions
         ++ Consola "start" "Resolving instructions..."
            :: map (λ i, ResolveInstructions
                      (resolveArgsOf ext
                         (cli_root (cliOptions ?? emptyCliOptions) ?? cwd ext)
                         preset (cfg_headLinkOptions config)
                         (bool_decide (cfg_headLinkOptions config ≫= hl_xhtml = Some true))
                         (bool_decide (cfg_headLinkOptions config ≫= hl_includeId = Some true))
                         i))
                   (imagesToUse images config)
         ++ rest,
         result)
      ∧ ((∀ args, ∃ i, resolveInstructions ext args = Ok i)
         ∧ (∀ i o d l, generateAssets ext i o d l = Ok tt) →
         result = Ok tt).
Proof.
  intros Hload Hpreset Himages.
  assert (imagesToUse images config ≠ []) as Hne.
  { unfold imagesToUse. case_bool_decide as Hcli.
    - by destruct (images ?? []).
    - destruct Himages as [|Hcfg]; [done|].
      destruct (cfg_images config) as [[p|l]|]; cbn in Hcfg |- *; [done| |done].
      by destruct l. }
  split; [exact Hne|].
  unfold run, andThen at 1 2 3 4, emit at 1 2 3, await at 1.
  cbn [app]. rewrite Hload, Hpreset.
  set (configImages := if bool_decide (length (images ?? []) ≠ 0%nat)
                       then Some (ManyImages (images ?? []))
                       else cfg_images config).
  assert (match configImages with
          | Some (OneImage p) => [p]
          | Some (ManyImages l) => l
          | None => []
          end = imagesToUse images config) as ->.
  { unfold configImages, imagesToUse. by case_bool_decide. }
  rewrite (bool_decide_eq_false_2 (imagesLength configImages = 0%nat)).
  2:{ unfold configImages. case_bool_decide as Hcli; [done|].
      destruct Himages; [done|lia]. }
  set (useImages := imagesToUse images config).
  unfold andThen at 1 2, emit at 1. cbn [app].
  rewrite forEach_emit.
  match goal with
  | |- context [andThen ?m ?k ?tr] =>
      destruct (extends_andThen
                  (C := (∀ args, ∃ i, resolveInstructions ext args = Ok i)
                        ∧ (∀ i o d l, generateAssets ext i o d l = Ok tt))
                  m k) with tr as (rest & result & Hrun & Hok)
  end.
  - apply extends_await. intros [Hres _]. by apply collect_ok.
  - intros instructions. repeat (apply extends_andThen; [apply extends_emit|intros _]).
    apply extends_andThen; [|intros _; apply extends_emit].
    apply extends_forEach. intros instruction.
    repeat (apply extends_andThen; [apply extends_emit|intros _]).
    apply extends_andThen.
    { apply extends_await. intros [_ Hgen]. rewrite Hgen. eauto. }
    intros _. apply extends_andThen; [apply extends_emit|intros _].
    apply extends_if; [|apply extends_pure].
    apply extends_andThen.
    + apply extends_if; [|apply extends_pure].
      apply extends_andThen; [apply extends_emit|intros _].
      apply extends_andThen; [|intros _; apply extends_emit].
      apply extends_forEach. intros link. apply extends_emit.
    + intros _. apply extends_if; [|apply extends_pure].
      repeat (apply extends_andThen; [apply extends_emit|intros _]).
      apply extends_emit.
  - exists rest, result. split.
    + rewrite Hrun. f_equal. unfold preamble.
      rewrite <- app_assoc. cbn [app]. by rewrite map_map.
    + intros HC. destruct (Hok HC) as [[] ->]. reflexivity.
Qed.

Lemma noResolution_preamble ext cliOptions : noResolution (preamble ext cliOptions).
Proof. repeat constructor. Qed.

(** C9, as the code has it.  [run] is an [async] function and performs its
    checks after awaiting the configuration load, so it never throws to
    its caller: the call returns a promise.  With the configuration
    loaded, (1) if it has no preset the promise is rejected with "No
    preset found", and (2) if it has one but neither the command line nor
    the configuration supplies a non-empty image list the promise is
    rejected with "No images provided"; in both cases nothing has happened
    but the two log lines and the configuration load, so no instruction
    resolution has been invoked.  (3) With a preset and at least one image
    neither error is raised: the run goes on to invoke the resolution once
    per image, and the promise is fulfilled when the collaborators
    succeed. *)
Theorem run_rejects_on_configuration_errors ext images cliOptions config :
  loadConfig ext (cli_root (cliOptions ?? emptyCliOptions) ?? cwd ext)
    (cliOptions ?? emptyCliOptions) = Ok config →
  (cfg_preset config = None →
     callAsync (run ext images cliOptions) =
       (preamble ext cliOptions, Returns (Rejected (JsError "No preset found")))
     ∧ noResolution (callAsync (run ext images cliOptions)).1)
  ∧ (is_Some (cfg_preset config) →
     length (images ?? []) = 0%nat →
     imagesLength (cfg_images config) = 0%nat →
     callAsync (run ext images cliOptions) =
       (preamble ext cliOptions, Returns (Rejected (JsError "No images provided")))
     ∧ noResolution (callAsync (run ext images cliOptions)).1)
  ∧ (∀ preset,
     cfg_preset config = Some preset →
     length (images ?? []) ≠ 0%nat ∨ imagesLength (cfg_images config) ≠ 0%nat →
     imagesToUse images config ≠ []
     ∧ ∃ rest settled,
         callAsync (run ext images cliOptions) =
           (preamble ext cliOptions
            ++ Consola "start" "Resolving instructions..."
               :: map (λ i, ResolveInstructions
                         (resolveArgsOf ext
                            (cli_root (cliOptions ?? emptyCliOptions) ?? cwd ext)
                            preset (cfg_headLinkOptions config)
                            (bool_decide
                               (cfg_headLinkOptions config ≫= hl_xhtml = Some true))
                            (bool_decide
                               (cfg_headLinkOptions config ≫= hl_includeId = Some true))
                            i))
                      (imagesToUse images config)
            ++ rest,
            Returns settled)
         ∧ ((∀ args, ∃ i, resolveInstructions ext args = Ok i)
            ∧ (∀ i o d l, generateAssets ext i o d l = Ok tt) →
            settled = Fulfilled tt)).
Proof.
  intros Hload. split; [|split].
  - intros Hpreset. unfold callAsync.
    rewrite (run_without_preset _ _ _ _ Hload Hpreset).
    split; [done|apply noResolution_preamble].
  - intros [preset Hpreset] Hcli Hcfg. unfold callAsync.
    rewrite (run_without_images _ _ _ _ _ Hload Hpreset Hcli Hcfg).
    split; [done|apply noResolution_preamble].
  - intros preset Hpreset Himages.
    destruct (run_with_images _ _ _ _ _ Hload Hpreset Himages)
      as (Hne & rest & result & Hrun & Hok).
    split; [exact Hne|]. unfold callAsync. rewrite Hrun.
    destruct result as [[]|e].
    + exists rest, (Fulfilled tt). done.
    + exists rest, (Rejected e). split; [done|].
      intros HC. by specialize (Hok HC).
Qed.

Lemma run_rejects_on_configuration_errors_witness :
  (callAsync (run (sampleCli (configWith None None)) (Some ["logo.svg"]) None) =
     (preamble (sampleCli (configWith None None)) None,
      Returns (Rejected (JsError "No preset found")))
   ∧ noResolution
       (callAsync (run (sampleCli (configWith None None))
                     (Some ["logo.svg"]) None)).1)
  ∧ (callAsync (run (sampleCli (configWith (Some (BuiltIn minimal)) (Some (ManyImages []))))
                  None None) =
       (preamble (sampleCli (configWith (Some (BuiltIn minimal)) (Some (ManyImages [])))) None,
        Returns (Rejected (JsError "No images provided")))
     ∧ noResolution
         (callAsync (run (sampleCli (configWith (Some (BuiltIn minimal))
                                       (Some (ManyImages []))))
                       None None)).1)
  ∧ (callAsync (run (sampleCli (configWith (Some (BuiltIn minimal))
                                    (Some (OneImage "logo.svg"))))
                  None None)).2
    = Returns (Fulfilled tt).
Proof.
  split; [|split].
  - apply (run_rejects_on_configuration_errors
             (sampleCli (configWith None None)) (Some ["logo.svg"]) None
             (configWith None None)); reflexivity.
  - apply (run_rejects_on_configuration_errors
             (sampleCli (configWith (Some (BuiltIn minimal)) (Some (ManyImages []))))
             None None
             (configWith (Some (BuiltIn minimal)) (Some (ManyImages []))));
      [reflexivity|by eexists|reflexivity|reflexivity].
  - destruct (run_rejects_on_configuration_errors
                (sampleCli (configWith (Some (BuiltIn minimal))
                              (Some (OneImage "logo.svg"))))
                None None
                (configWith (Some (BuiltIn minimal)) (Some (OneImage "logo.svg")))
                eq_refl) as (_ & _ & Hgo).
    destruct (Hgo (BuiltIn minimal) eq_refl)
      as (_ & rest & settled & Hrun & Hok).
    + right. cbn. lia.
    + rewrite Hrun. cbn [snd]. f_equal. apply Hok. split.
      * intros args. eexists. reflexivity.
      * reflexivity.
Defined.

(** C9, as the design document states it, fails on "synchronously": with a
    configuration that has no preset the call completes normally, by
    returning a promise, and it is this promise that is rejected; nothing
    is thrown to the caller. *)
Lemma run_throws_synchronously_counterexample :
  (callAsync (run (sampleCli (configWith None None)) (Some ["logo.svg"]) None)).2
  = Returns (Rejected (JsError "No preset found"))
  ∧ ¬ ∃ e, (callAsync (run (sampleCli (configWith None None))
                         (Some ["logo.svg"]) None)).2 = Throws e.
Proof. split; [reflexivity|]. intros [e He]. discriminate He. Qed.

(** * Further properties of the variant expander *)

(** The width-keyed map the callback leaves behind. *)
Lemma expandStep_sizesMap png0 sizesMap acc size :
  (expandStep png0 (sizesMap, acc) size).1 = <[width size := height size]> sizesMap.
Proof.
  destruct (decide (sizesMap !! width size = Some (height size))) as [Hdup|Hnew].
  - rewrite expandStep_skip by done. cbn [fst]. by rewrite insert_id.
  - by rewrite expandStep_keep.
Qed.

Lemma expandFrom_sizesMap png0 sizes : ∀ sizesMap acc,
  (expandFrom png0 (sizesMap, acc) sizes).1 = sizesMapAfter sizesMap sizes.
Proof.
  unfold expandFrom, sizesMapAfter.
  induction sizes as [|size rest IH]; intros sizesMap acc; [done|].
  cbn [fold_left].
  destruct (expandStep png0 (sizesMap, acc) size) as [m' acc'] eqn:Hstep.
  rewrite IH. f_equal.
  by rewrite <- (expandStep_sizesMap png0 sizesMap acc size), Hstep.
Qed.

Lemma keptFrom_app sizes1 sizes2 : ∀ sizesMap,
  keptFrom sizesMap (sizes1 ++ sizes2) =
    keptFrom sizesMap sizes1 ++ keptFrom (sizesMapAfter sizesMap sizes1) sizes2.
Proof.
  unfold sizesMapAfter.
  induction sizes1 as [|size rest IH]; intros sizesMap; [done|].
  cbn [app keptFrom fold_left]. case_bool_decide as Hdup.
  - rewrite IH. by rewrite insert_id.
  - by rewrite IH.
Qed.

Lemma sizesMapAfter_snoc sizesMap sizes size :
  sizesMapAfter sizesMap (sizes ++ [size]) =
    <[width size := height size]> (sizesMapAfter sizesMap sizes).
Proof. unfold sizesMapAfter. by rewrite fold_left_app. Qed.

(** The map holds, for every width, the height of the last descriptor
    seen with that width. *)
Lemma sizesMapAfter_lookup sizes w :
  sizesMapAfter ∅ sizes !! w = lastHeightFor w sizes.
Proof.
  unfold lastHeightFor.
  induction sizes as [|size sizes IH] using rev_ind; [done|].
  rewrite sizesMapAfter_snoc, filter_app, filter_cons, filter_nil.
  destruct (decide (width size = w)) as [<-|Hne].
  - rewrite lookup_insert_eq. by rewrite last_snoc.
  - rewrite lookup_insert_ne by done. by rewrite app_nil_r.
Qed.

(** X1.  A descriptor is skipped exactly when the last descriptor before
    it that declares the same width also declares the same height;
    descriptors of other widths in between do not matter, one of the same
    width and another height makes the callback forget the pair. *)
Theorem descriptor_skipped_iff_last_same_width_matches sizes size :
  keptOf (sizes ++ [size]) =
    keptOf sizes ++
      (if bool_decide (lastHeightFor (width size) sizes = Some (height size))
       then [] else [size]).
Proof.
  unfold keptOf. rewrite keptFrom_app. f_equal.
  cbn [keptFrom]. rewrite sizesMapAfter_lookup.
  by case_bool_decide.
Qed.

Lemma keptFrom_covers sizes : ∀ sizesMap,
  Forall (λ size, dims size ∈ map dims (keptFrom sizesMap sizes)
                  ∨ sizesMap !! width size = Some (height size)) sizes.
Proof.
  induction sizes as [|s rest IH]; intros sizesMap; [constructor|].
  cbn [keptFrom]. case_bool_decide as Hdup.
  - constructor; [by right|apply IH].
  - constructor; [left; cbn [map]; apply list_elem_of_here|].
    eapply Forall_impl; [apply (IH (<[width s := height s]> sizesMap))|].
    intros d [Hin|Hmap]; cbn beta in *.
    + left. cbn [map]. by apply list_elem_of_further.
    + destruct (decide (width s = width d)) as [Hw|Hw].
      * rewrite Hw, lookup_insert_eq in Hmap. injection Hmap as Hh.
        left. cbn [map]. unfold dims at 1. rewrite <- Hw, <- Hh.
        apply list_elem_of_here.
      * rewrite lookup_insert_ne in Hmap by done. by right.
Qed.

(** X2.  Deduplication loses no dimensions: every (width, height) pair
    declared in the input is the pair of some descriptor that is
    expanded. *)
Theorem every_declared_pair_is_expanded sizes :
  Forall (λ size, dims size ∈ map dims (keptOf sizes)) sizes.
Proof.
  eapply Forall_impl; [apply (keptFrom_covers sizes ∅)|].
  intros size [Hin|Hmap]; [done|]. by rewrite lookup_empty in Hmap.
Qed.

Lemma keptFrom_idempotent sizes : ∀ sizesMap,
  keptFrom sizesMap (keptFrom sizesMap sizes) = keptFrom sizesMap sizes.
Proof.
  induction sizes as [|s rest IH]; intros sizesMap; [done|].
  cbn [keptFrom]. case_bool_decide as Hdup; [apply IH|].
  cbn [keptFrom]. rewrite bool_decide_eq_false_2 by done. by rewrite IH.
Qed.

(** X3.  Expanding is insensitive to the descriptors it skips: removing
    them from the input beforehand changes nothing, neither which
    descriptors are expanded nor the variants emitted. *)
Theorem expansion_ignores_skipped_descriptors png0 sizes :
  keptOf (keptOf sizes) = keptOf sizes
  ∧ splashScreensOf png0 (keptOf sizes) = splashScreensOf png0 sizes.
Proof.
  assert (keptOf (keptOf sizes) = keptOf sizes) as Hk
    by apply keptFrom_idempotent.
  split; [exact Hk|]. by rewrite !splashScreensOf_groups, Hk.
Qed.

(** * Further properties of the cascader and the resolution *)

Lemma variantsOf_defined png0 size :
  is_Some (darkResizeOptions size) → is_Some (resizeOptions size) →
  Forall (λ v, is_Some (ssd_dark v) ∧ is_Some (ssd_resizeOptions v))
         (variantsOf png0 size)
  ∧ length (variantsOf png0 size) = 4%nat.
Proof.
  intros [dro Hd] [ro Hr]. rewrite (variantsOf_dark _ _ dro Hd).
  split; [|done].
  repeat constructor; cbn [portraitOf landscapeOf ssd_dark ssd_resizeOptions];
    rewrite ?Hr; eauto.
Qed.

Lemma cascadeSize_light lib use size :
  is_Some (resizeOptions (cascadeSize lib use size)).
Proof.
  unfold cascadeSize, backfill. cbn [resizeOptions].
  destruct (resizeOptions size); eauto.
Qed.


(** X4.  Through the resolution the light-only branch of the expander is
    never taken: the cascader gives every descriptor dark resize options,
    so each expanded descriptor yields four variants, every variant has
    [dark] defined ([false] or [true], never [undefined]) and carries
    resize options. *)
Theorem resolution_always_emits_dark_variants lib use :
  Forall (λ v, is_Some (ssd_dark v) ∧ is_Some (ssd_resizeOptions v))
         (emittedVariants lib use)
  ∧ length (emittedVariants lib use) = (4 * length (keptOf (use_sizes use)))%nat.
Proof.
  rewrite emittedVariants_groups.
  induction (keptOf (use_sizes use)) as [|size kept [IHall IHlen]]; [by split|].
  rewrite bind_cons, length_app, IHlen.
  destruct (variantsOf_defined (r_png (resolveGiven lib use))
              (cascadeSize lib use size)
              (cascadeSize_dark lib use size) (cascadeSize_light lib use size))
    as [Hall Hlen].
  split; [by apply Forall_app|]. rewrite Hlen. cbn [length]. lia.
Qed.

Lemma variantsOf_png png0 size v :
  v ∈ variantsOf png0 size → ssd_png v = png size ?? png0.
Proof.
  destruct (darkResizeOptions size) as [dro|] eqn:Hd.
  - rewrite (variantsOf_dark _ _ dro Hd).
    rewrite !elem_of_cons, elem_of_nil. intros [->|[->|[->|[->|[]]]]]; reflexivity.
  - rewrite (variantsOf_light _ _ Hd).
    rewrite !elem_of_cons, elem_of_nil. intros [->|[->|[]]]; reflexivity.
Qed.

(** X5.  The compression options of a variant cascade like its padding:
    they are the descriptor's own [png] when it sets one, and otherwise
    what [createPngCompressionOptions] makes of the configuration's [png]
    (of the empty record when the configuration sets none). *)
Theorem variant_png_cascade lib use v :
  v ∈ emittedVariants lib use →
  ∃ size,
    size ∈ use_sizes use
    ∧ v ∈ variantsOf (r_png (resolveGiven lib use)) (cascadeSize lib use size)
    ∧ ssd_png v =
        match png size with
        | Some perSize => perSize
        | None =>
            createPngCompressionOptions lib
              match use_png use with
              | Some presetLevel => presetLevel
              | None => emptyPngOptions
              end
        end.
Proof.
  rewrite emittedVariants_groups.
  intros (size & Hv & Hsize)%list_elem_of_bind.
  exists size. split; [|split; [done|]].
  - eapply elem_of_sublist; [exact Hsize|apply keptFrom_sublist].
  - rewrite (variantsOf_png _ _ _ Hv).
    unfold cascadeSize, backfill. cbn [png].
    destruct (png size), (use_png use); reflexivity.
Qed.

Lemma variant_png_cascade_witness :
  ∃ size,
    size ∈ use_sizes compressedConfig
    ∧ landscapeOf (mkPngOptions None (Some 9) None None (Some 60) None None None)
        (Some false) (globalResizeDefaults false) (Some (globalResizeDefaults true))
        (cascadeSize sampleLib compressedConfig
           {| width := 750; height := 1334; padding := None;
              png := Some (mkPngOptions None (Some 6) None None (Some 80) None None None);
              resizeOptions := None; darkResizeOptions := None |})
      ∈ variantsOf (r_png (resolveGiven sampleLib compressedConfig))
          (cascadeSize sampleLib compressedConfig size)
    ∧ ssd_png
        (landscapeOf (mkPngOptions None (Some 9) None None (Some 60) None None None)
           (Some false) (globalResizeDefaults false) (Some (globalResizeDefaults true))
           (cascadeSize sampleLib compressedConfig
              {| width := 750; height := 1334; padding := None;
                 png := Some (mkPngOptions None (Some 6) None None (Some 80) None None None);
                 resizeOptions := None; darkResizeOptions := None |}))
      = match png size with
        | Some perSize => perSize
        | None =>
            createPngCompressionOptions sampleLib
              match use_png compressedConfig with
              | Some presetLevel => presetLevel
              | None => emptyPngOptions
              end
        end.
Proof.
  apply (variant_png_cascade sampleLib compressedConfig).
  vm_compute. do 5 apply list_elem_of_further. apply list_elem_of_here.
Defined.

Lemma backfill_idempotent p g r d size :
  backfill p g r d (backfill p g r d size) = backfill p g r d size.
Proof.
  unfold backfill. cbn [width height padding png resizeOptions darkResizeOptions].
  destruct (padding size), (png size), (resizeOptions size),
    (darkResizeOptions size); reflexivity.
Qed.

Lemma resolveGiven_after_backfill lib use use' :
  configAfterResolve lib (Some use) = Some use' →
  resolveGiven lib use' = resolveGiven lib use
  ∧ configAfterResolve lib (Some use') = Some use'.
Proof.
  unfold configAfterResolve. cbn [resolveAppleSplashScreens].
  intros [= <-].
  assert (resolveGiven lib
            {| use_padding := use_padding use;
               use_resizeOptions := use_resizeOptions use;
               use_darkResizeOptions := use_darkResizeOptions use;
               use_linkMediaOptions := use_linkMediaOptions use;
               use_sizes := r_sizes (resolveGiven lib use);
               use_name := use_name use;
               use_png := use_png use |} = resolveGiven lib use) as Heq.
  { unfold resolveGiven.
    cbn [use_padding use_resizeOptions use_darkResizeOptions
         use_linkMediaOptions use_sizes use_name use_png r_sizes].
    f_equal. rewrite map_map. apply map_ext. intros size.
    apply backfill_idempotent. }
  split; [exact Heq|].
  cbn [use_padding use_resizeOptions use_darkResizeOptions
       use_linkMediaOptions use_name use_png].
  do 2 f_equal. exact (f_equal r_sizes Heq).
Qed.

(** X6.  The resolution back-fills the caller's size objects in place, and
    it is stable under its own back-fill: calling it again with the
    configuration as a first call left it assigns the same entries as on
    the original configuration and leaves the configuration as it is. *)
Theorem resolution_stable_under_backfill lib image0 imageAssets0 instructions0
    image1 imageAssets instructions useAppleSplashScreens :
  let backfilled :=
    (resolveAppleSplashScreensInstructions lib image0 imageAssets0
       instructions0 useAppleSplashScreens).2 in
  resolveAppleSplashScreensInstructions lib image1 imageAssets instructions
    backfilled
  = ((resolveAppleSplashScreensInstructions lib image1 imageAssets instructions
        useAppleSplashScreens).1,
     backfilled).
Proof.
  cbn zeta. destruct useAppleSplashScreens as [use|]; [|reflexivity].
  assert ((resolveAppleSplashScreensInstructions lib image0 imageAssets0
             instructions0 (Some use)).2 = configAfterResolve lib (Some use))
    as -> by (unfold resolveAppleSplashScreensInstructions;
              cbn [resolveAppleSplashScreens]; by case_bool_decide).
  destruct (configAfterResolve lib (Some use)) as [use'|] eqn:Hafter;
    [|discriminate Hafter].
  destruct (resolveGiven_after_backfill lib use use' Hafter) as [Hres Hcfg].
  unfold resolveAppleSplashScreensInstructions.
  cbn [resolveAppleSplashScreens]. rewrite Hcfg, Hres.
  by case_bool_decide.
Qed.

(** * Properties of the instructions object *)

Lemma obj_get_set_eq {A} key (value : A) o :
  obj_get key (obj_set key value o) = Some value.
Proof.
  induction o as [|[k v] rest IH]; cbn [obj_set obj_get].
  - by rewrite bool_decide_eq_true_2.
  - case_bool_decide as Hk; cbn [obj_get].
    + by rewrite bool_decide_eq_true_2.
    + by rewrite bool_decide_eq_false_2.
Qed.

Lemma obj_get_set_ne {A} key key' (value : A) o :
  key ≠ key' → obj_get key' (obj_set key value o) = obj_get key' o.
Proof.
  intros Hne. induction o as [|[k v] rest IH]; cbn [obj_set obj_get].
  - by rewrite bool_decide_eq_false_2.
  - case_bool_decide as Hk; cbn [obj_get].
    + subst k. by rewrite !bool_decide_eq_false_2.
    + by rewrite IH.
Qed.


Lemma obj_set_keyedByUrl key value o :
  e_url value = key → keyedByUrl o → keyedByUrl (obj_set key value o).
Proof.
  intros Hurl. unfold keyedByUrl.
  induction o as [|[k v] rest IH]; cbn [obj_set]; intros Ho.
  - by constructor.
  - apply Forall_cons in Ho as [Hkv Hrest]. case_bool_decide as Hk.
    + subst k. by constructor.
    + constructor; [done|by apply IH].
Qed.

Lemma assignAll_cons kv entries o :
  assignAll (kv :: entries) o = assignAll entries (obj_set kv.1 kv.2 o).
Proof. reflexivity. Qed.

(** What a call assigns is [assignedEntries], also when it returns
    early. *)
Lemma resolution_assigns lib image0 imageAssets instructions useAppleSplashScreens :
  appleSplashScreen
    (resolveAppleSplashScreensInstructions lib image0 imageAssets instructions
       useAppleSplashScreens).1
  = assignAll (assignedEntries lib image0 imageAssets useAppleSplashScreens)
      (appleSplashScreen instructions).
Proof.
  destruct useAppleSplashScreens as [use|]; [|reflexivity].
  unfold resolveAppleSplashScreensInstructions, assignedEntries, resolvedEntries.
  cbn [resolveAppleSplashScreens]. case_bool_decide as Hempty; cbn [fst]; [|done].
  unfold splashEntries. apply length_zero_iff_nil in Hempty. by rewrite Hempty.
Qed.

Lemma entryOf_keyed lib image0 imageAssets resolved v :
  e_url (entryOf lib image0 imageAssets resolved v).2
  = (entryOf lib image0 imageAssets resolved v).1.
Proof. reflexivity. Qed.

(** X7.  The resolution keeps the category keyed by URL: if every entry of
    [appleSplashScreen] sits under its own [url] before the call, so does
    every entry after it. *)
Theorem resolution_keeps_entries_keyed_by_url lib image0 imageAssets
    instructions useAppleSplashScreens :
  keyedByUrl (appleSplashScreen instructions) →
  keyedByUrl
    (appleSplashScreen
       (resolveAppleSplashScreensInstructions lib image0 imageAssets
          instructions useAppleSplashScreens).1).
Proof.
  rewrite resolution_assigns.
  assert (Forall (λ kv, e_url kv.2 = kv.1)
            (assignedEntries lib image0 imageAssets useAppleSplashScreens)) as Hentries.
  { destruct useAppleSplashScreens as [use|]; [|constructor].
    unfold assignedEntries, resolvedEntries, splashEntries.
    apply Forall_fmap, Forall_true. intros v. apply entryOf_keyed. }
  revert Hentries. generalize (appleSplashScreen instructions) as o.
  induction (assignedEntries lib image0 imageAssets useAppleSplashScreens)
    as [|kv entries IH]; intros o Hentries Ho; [done|].
  apply Forall_cons in Hentries as [Hkv Hrest].
  rewrite assignAll_cons. apply IH; [done|]. by apply obj_set_keyedByUrl.
Qed.

Lemma resolution_keeps_entries_keyed_by_url_witness :
  keyedByUrl
    (appleSplashScreen
       (resolveAppleSplashScreensInstructions sampleLib [] sampleImageAssets
          emptyInstructions (Some scenarioConfig)).1).
Proof.
  apply (resolution_keeps_entries_keyed_by_url sampleLib [] sampleImageAssets
           emptyInstructions (Some scenarioConfig)).
  constructor.
Defined.



Lemma assignAll_get key entries : ∀ o,
  obj_get key (assignAll entries o) =
    match lastAssigned key entries with
    | Some e => Some e
    | None => obj_get key o
    end.
Proof.
  unfold lastAssigned.
  induction entries as [|[k e] entries IH]; intros o; [done|].
  rewrite assignAll_cons, IH. cbn [fst snd].
  destruct (decide (k = key)) as [->|Hne].
  - rewrite filter_cons_True by done. rewrite last_cons.
    destruct (last (filter _ entries)) as [kv|]; [done|].
    cbn. apply obj_get_set_eq.
  - rewrite filter_cons_False by done.
    destruct (last (filter _ entries)) as [kv|]; [done|].
    cbn. by apply obj_get_set_ne.
Qed.

(** X9.  Reading the category after the call: under a URL that the call
    assigned, the entry is the last one assigned to that URL (a later
    variant with the same name replaces an earlier one); under any other
    key, the entry is the one that was there before. *)
Theorem resolution_last_assignment_wins lib image0 imageAssets instructions
    useAppleSplashScreens key :
  obj_get key
    (appleSplashScreen
       (resolveAppleSplashScreensInstructions lib image0 imageAssets
          instructions useAppleSplashScreens).1)
  = match lastAssigned key
            (assignedEntries lib image0 imageAssets useAppleSplashScreens) with
    | Some e => Some e
    | None => obj_get key (appleSplashScreen instructions)
    end.
Proof. rewrite resolution_assigns. apply assignAll_get. Qed.




(** * Further properties of [run] *)

(** With a preset and an image, [run] gets to the resolution: its trace
    so far is [resolutionTrace], and what remains is to await the
    resolutions and to go through [afterResolution]. *)
Lemma run_reaches_resolution ext images cliOptions config preset :
  loadConfig ext (rootFor ext cliOptions) (cliOptions ?? emptyCliOptions) = Ok config →
  cfg_preset config = Some preset →
  length (images ?? []) ≠ 0%nat ∨ imagesLength (cfg_images config) ≠ 0%nat →
  run ext images cliOptions [] =
    andThen
      (await (collect (map (resolveInstructions ext)
                         (callsFor ext cliOptions config preset images))))
      (afterResolution ext cliOptions config images)
      (resolutionTrace ext cliOptions config preset images).
Proof.
  intros Hload Hpreset Himages. unfold rootFor in Hload.
  unfold run, andThen at 1 2 3 4, emit at 1 2 3, await at 1.
  cbn [app]. rewrite Hload, Hpreset.
  set (configImages := if bool_decide (length (images ?? []) ≠ 0%nat)
                       then Some (ManyImages (images ?? []))
                       else cfg_images config).
  assert (match configImages with
          | Some (OneImage p) => [p]
          | Some (ManyImages l) => l
          | None => []
          end = imagesToUse images config) as ->.
  { unfold configImages, imagesToUse. by case_bool_decide. }
  rewrite (bool_decide_eq_false_2 (imagesLength configImages = 0%nat)).
  2:{ unfold configImages. case_bool_decide as Hcli; [done|].
      destruct Himages; [done|lia]. }
  unfold andThen at 1 2, emit at 1. cbn [app].
  rewrite forEach_emit. reflexivity.
Qed.

Section EmitsOnly.
Context {P : Event → Prop}.

Lemma emitsOnly_pure {A} (a : A) : emitsOnly P (pure a).
Proof. intros tr. exists [], (Ok a). by rewrite app_nil_r. Qed.

Lemma emitsOnly_throw {A} e : emitsOnly P (throw (A := A) e).
Proof. intros tr. exists [], (Err e). by rewrite app_nil_r. Qed.

Lemma emitsOnly_await {A} (r : Result A) : emitsOnly P (await r).
Proof. intros tr. exists [], r. by rewrite app_nil_r. Qed.

Lemma emitsOnly_emit ev : P ev → emitsOnly P (emit ev).
Proof. intros Hev tr. exists [ev], (Ok tt). split; [done|]. by constructor. Qed.

Lemma emitsOnly_andThen {A B} (m : Async A) (k : A → Async B) :
  emitsOnly P m → (∀ a, emitsOnly P (k a)) → emitsOnly P (andThen m k).
Proof.
  intros Hm Hk tr. unfold andThen.
  destruct (Hm tr) as (evs & [a|e] & -> & Hevs).
  - destruct (Hk a (tr ++ evs)) as (evs' & r' & -> & Hevs').
    exists (evs ++ evs'), r'. rewrite app_assoc. split; [done|].
    by apply Forall_app.
  - by exists evs, (Err e).
Qed.

Lemma emitsOnly_forEach {A} (body : A → Async unit) l :
  (∀ x, x ∈ l → emitsOnly P (body x)) → emitsOnly P (forEach l body).
Proof.
  induction l as [|x l IH]; intros Hbody; cbn [forEach].
  - apply emitsOnly_pure.
  - apply emitsOnly_andThen; [apply Hbody, list_elem_of_here|].
    intros _. apply IH. intros y Hy. by apply Hbody, list_elem_of_further.
Qed.

Lemma emitsOnly_if {A} (b : bool) (m1 m2 : Async A) :
  (b = true → emitsOnly P m1) → (b = false → emitsOnly P m2) →
  emitsOnly P (if b then m1 else m2).
Proof. destruct b; auto. Qed.

(** The events of the loop body for one instruction. *)
Lemma generateFor_emitsOnly ext cliOptions config instruction :
  (∀ method message, P (Consola method message)) →
  P (generationOf ext cliOptions config instruction) →
  (logLevelFor config ≠ "silent" →
   ∀ link, link ∈ generateHtmlMarkup ext instruction → P (ConsoleLog link)) →
  (logLevelFor config ≠ "silent" → manifestFor cliOptions config = true →
   P (ConsoleLog (generateManifestIconsEntry ext instruction))) →
  emitsOnly P (generateFor ext cliOptions config instruction).
Proof.
  intros Hconsola Hgen Hlinks Hmanifest. unfold generateFor.
  apply emitsOnly_andThen; [by apply emitsOnly_emit|intros _].
  apply emitsOnly_andThen; [by apply emitsOnly_emit|intros _].
  apply emitsOnly_andThen; [apply emitsOnly_await|intros _].
  apply emitsOnly_andThen; [by apply emitsOnly_emit|intros _].
  apply emitsOnly_if; [intros Hlog%bool_decide_eq_true_1|intros _; apply emitsOnly_pure].
  apply emitsOnly_andThen.
  - apply emitsOnly_if; [intros _|intros _; apply emitsOnly_pure].
    apply emitsOnly_andThen; [by apply emitsOnly_emit|intros _].
    apply emitsOnly_andThen; [|intros _; by apply emitsOnly_emit].
    apply emitsOnly_forEach. intros link Hlink. apply emitsOnly_emit. by apply Hlinks.
  - intros _. apply emitsOnly_if; [intros Hm|intros _; apply emitsOnly_pure].
    apply emitsOnly_andThen; [by apply emitsOnly_emit|intros _].
    apply emitsOnly_andThen; [apply emitsOnly_emit; by apply Hmanifest|intros _].
    by apply emitsOnly_emit.
Qed.

Lemma afterResolution_emitsOnly ext cliOptions config images instructions :
  (∀ method message, P (Consola method message)) →
  (∀ i, i ∈ instructions → P (generationOf ext cliOptions config i)) →
  (logLevelFor config ≠ "silent" →
   ∀ i link, i ∈ instructions → link ∈ generateHtmlMarkup ext i →
   P (ConsoleLog link)) →
  (logLevelFor config ≠ "silent" → manifestFor cliOptions config = true →
   ∀ i, i ∈ instructions → P (ConsoleLog (generateManifestIconsEntry ext i))) →
  emitsOnly P (afterResolution ext cliOptions config images instructions).
Proof.
  intros Hconsola Hgen Hlinks Hmanifest. unfold afterResolution.
  apply emitsOnly_andThen; [by apply emitsOnly_emit|intros _].
  apply emitsOnly_andThen; [by apply emitsOnly_emit|intros _].
  apply emitsOnly_andThen; [|intros _; by apply emitsOnly_emit].
  apply emitsOnly_forEach. intros i Hi.
  apply generateFor_emitsOnly; eauto.
Qed.

End EmitsOnly.

Lemma callAsync_trace {A} (m : Async A) : (callAsync m).1 = (m []).1.
Proof. unfold callAsync. by destruct (m []) as [tr [a|e]]. Qed.

Lemma callAsync_outcome {A} (m : Async A) :
  (callAsync m).2 =
    Returns match (m []).2 with Ok a => Fulfilled a | Err e => Rejected e end.
Proof. unfold callAsync. by destruct (m []) as [tr [a|e]]. Qed.

Lemma filter_none {A} (Q : A → Prop) `{∀ x, Decision (Q x)} (l : list A) :
  Forall (λ x, ¬ Q x) l → filter Q l = [].
Proof.
  induction 1 as [|x l Hx Hl IH]; [done|]. by rewrite filter_cons_False.
Qed.

(** The events of a whole run, once the configuration is loaded. *)
Lemma run_trace_Forall (P : Event → Prop) ext images cliOptions config :
  loadConfig ext (rootFor ext cliOptions) (cliOptions ?? emptyCliOptions) = Ok config →
  (∀ method message, P (Consola method message)) →
  (∀ root options, P (LoadConfig root options)) →
  (∀ args, P (ResolveInstructions args)) →
  (∀ i, P (generationOf ext cliOptions config i)) →
  (logLevelFor config ≠ "silent" →
   ∀ i link, link ∈ generateHtmlMarkup ext i → P (ConsoleLog link)) →
  (logLevelFor config ≠ "silent" → manifestFor cliOptions config = true →
   ∀ i, P (ConsoleLog (generateManifestIconsEntry ext i))) →
  Forall P (callAsync (run ext images cliOptions)).1.
Proof.
  intros Hload Hconsola Hloadev Hresolve Hgen Hlinks Hmanifest.
  rewrite callAsync_trace.
  assert (Forall P (preamble ext cliOptions)) as Hpre by (repeat constructor; done).
  destruct (cfg_preset config) as [preset|] eqn:Hpreset.
  2:{ by rewrite (run_without_preset _ _ _ _ Hload Hpreset). }
  destruct (decide (length (images ?? []) = 0%nat
                    ∧ imagesLength (cfg_images config) = 0%nat)) as [[Hcli Hcfg]|Himages].
  { by rewrite (run_without_images _ _ _ _ _ Hload Hpreset Hcli Hcfg). }
  rewrite (run_reaches_resolution _ _ _ _ _ Hload Hpreset) by lia.
  assert (Forall P (resolutionTrace ext cliOptions config preset images)) as Hres.
  { unfold resolutionTrace. apply Forall_app. split; [done|].
    constructor; [done|]. apply Forall_fmap, Forall_true. intros args. apply Hresolve. }
  unfold andThen, await.
  destruct (collect _) as [instructions|e]; [|done].
  destruct (afterResolution_emitsOnly (P := P) ext cliOptions config images
              instructions) with (resolutionTrace ext cliOptions config preset images)
    as (evs & r & -> & Hevs); eauto.
  cbn [fst]. by apply Forall_app.
Qed.

(** X11.  A failing configuration load ends the run: the promise is
    rejected with the loader's own error, the trace stops at the load,
    and neither check and no resolution takes place. *)
Theorem run_passes_on_load_failure ext images cliOptions e :
  loadConfig ext (rootFor ext cliOptions) (cliOptions ?? emptyCliOptions) = Err e →
  callAsync (run ext images cliOptions)
  = (preamble ext cliOptions, Returns (Rejected e)).
Proof.
  intros Hload. unfold rootFor in Hload.
  unfold callAsync, run, andThen, emit, await. cbn [app].
  by rewrite Hload.
Qed.

Lemma run_passes_on_load_failure_witness :
  callAsync (run brokenLoaderCli (Some ["logo.svg"]) None)
  = (preamble brokenLoaderCli None,
     Returns (Rejected (Foreign "cannot read pwa-assets.config.ts"))).
Proof.
  apply (run_passes_on_load_failure brokenLoaderCli (Some ["logo.svg"]) None).
  reflexivity.
Defined.

Lemma resolutionTrace_no_generation ext cliOptions config preset images :
  Forall (λ ev, isGenerateAssets ev = false)
         (resolutionTrace ext cliOptions config preset images).
Proof.
  unfold resolutionTrace, preamble. repeat (constructor; [done|]).
  apply Forall_fmap, Forall_true. done.
Qed.

Lemma run_after_resolution_trace ext images cliOptions config preset :
  loadConfig ext (rootFor ext cliOptions) (cliOptions ?? emptyCliOptions) = Ok config →
  cfg_preset config = Some preset →
  length (images ?? []) ≠ 0%nat ∨ imagesLength (cfg_images config) ≠ 0%nat →
  ∃ after,
    (callAsync (run ext images cliOptions)).1
    = resolutionTrace ext cliOptions config preset images ++ after
    ∧ Forall (λ ev, isResolveInstructions ev = false) after.
Proof.
  intros Hload Hpreset Himages.
  rewrite callAsync_trace, (run_reaches_resolution _ _ _ _ _ Hload Hpreset Himages).
  unfold andThen, await. destruct (collect _) as [instructions|e].
  - destruct (afterResolution_emitsOnly
                (P := λ ev, isResolveInstructions ev = false)
                ext cliOptions config images instructions)
      with (resolutionTrace ext cliOptions config preset images)
      as (evs & r & -> & Hevs); try done.
    by exists evs.
  - exists []. by rewrite app_nil_r.
Qed.

(** X12.  With the configuration loaded, a preset and at least one image,
    [run] invokes the resolution exactly once per image, in the order of
    the images (those of the command line when it gives any, otherwise
    those of the configuration, a single string counting as one image),
    and every one of these calls is made before the first
    [generateAssets] call. *)
Theorem run_resolves_each_image_once ext images cliOptions config preset :
  loadConfig ext (rootFor ext cliOptions) (cliOptions ?? emptyCliOptions) = Ok config →
  cfg_preset config = Some preset →
  length (images ?? []) ≠ 0%nat ∨ imagesLength (cfg_images config) ≠ 0%nat →
  filter (λ ev, isResolveInstructions ev = true)
         (callAsync (run ext images cliOptions)).1
  = map (λ i, ResolveInstructions
                (resolveArgsOf ext (rootFor ext cliOptions) preset
                   (cfg_headLinkOptions config)
                   (bool_decide (cfg_headLinkOptions config ≫= hl_xhtml = Some true))
                   (bool_decide (cfg_headLinkOptions config ≫= hl_includeId = Some true))
                   i))
        (imagesToUse images config)
  ∧ ∃ before after,
      (callAsync (run ext images cliOptions)).1 = before ++ after
      ∧ Forall (λ ev, isGenerateAssets ev = false) before
      ∧ Forall (λ ev, isResolveInstructions ev = false) after.
Proof.
  intros Hload Hpreset Himages.
  destruct (run_after_resolution_trace _ _ _ _ _ Hload Hpreset Himages)
    as (after & Htrace & Hafter).
  split.
  - rewrite Htrace, filter_app.
    rewrite (filter_none _ after)
      by (eapply Forall_impl; [exact Hafter|]; intros ev ->; done).
    rewrite app_nil_r. unfold resolutionTrace, callsFor.
    rewrite filter_app, (filter_none _ (preamble _ _))
      by (repeat constructor; done).
    rewrite filter_cons_False by done. cbn [app]. rewrite map_map.
    generalize (imagesToUse images config) as l.
    induction l as [|i l IH]; [done|].
    cbn [map]. rewrite filter_cons_True by done. by rewrite IH.
  - exists (resolutionTrace ext cliOptions config preset images), after.
    split; [done|]. split; [apply resolutionTrace_no_generation|done].
Qed.

Lemma run_resolves_each_image_once_witness :
  filter (λ ev, isResolveInstructions ev = true)
         (callAsync (run (sampleCli silentConfig) (Some ["a.svg"; "b.png"]) None)).1
  = map (λ i, ResolveInstructions
                (resolveArgsOf (sampleCli silentConfig)
                   (rootFor (sampleCli silentConfig) None) (BuiltIn minimal)
                   (cfg_headLinkOptions silentConfig)
                   (bool_decide (cfg_headLinkOptions silentConfig ≫= hl_xhtml = Some true))
                   (bool_decide (cfg_headLinkOptions silentConfig ≫= hl_includeId = Some true))
                   i))
        (imagesToUse (Some ["a.svg"; "b.png"]) silentConfig)
  ∧ ∃ before after,
      (callAsync (run (sampleCli silentConfig) (Some ["a.svg"; "b.png"]) None)).1
      = before ++ after
      ∧ Forall (λ ev, isGenerateAssets ev = false) before
      ∧ Forall (λ ev, isResolveInstructions ev = false) after.
Proof.
  apply (run_resolves_each_image_once (sampleCli silentConfig)
           (Some ["a.svg"; "b.png"]) None silentConfig (BuiltIn minimal));
    [reflexivity|reflexivity|].
  left. cbn. lia.
Defined.

Lemma collect_err {A B} (f : A → Result B) l x e :
  x ∈ l → f x = Err e → ∃ e', collect (map f l) = Err e'.
Proof.
  intros Hx Hfx. induction l as [|y l IH]; [by apply elem_of_nil in Hx|].
  cbn [map collect]. destruct (f y) as [b|e0] eqn:Hfy; [|eauto].
  apply elem_of_cons in Hx as [->|Hx]; [congruence|].
  destruct (IH Hx) as [e' ->]. eauto.
Qed.

(** X13.  When the resolution of some image fails (its promise is
    rejected), the run is over after
    the resolution calls: all of them have been made (also those after
    the failing one), the promise is rejected, and no assets are
    generated for any image, not even for those that resolved. *)
Theorem run_stops_on_resolution_failure ext images cliOptions config preset args e :
  loadConfig ext (rootFor ext cliOptions) (cliOptions ?? emptyCliOptions) = Ok config →
  cfg_preset config = Some preset →
  length (images ?? []) ≠ 0%nat ∨ imagesLength (cfg_images config) ≠ 0%nat →
  args ∈ callsFor ext cliOptions config preset images →
  resolveInstructions ext args = Err e →
  ∃ e',
    callAsync (run ext images cliOptions)
    = (resolutionTrace ext cliOptions config preset images, Returns (Rejected e'))
    ∧ Forall (λ ev, isGenerateAssets ev = false)
             (callAsync (run ext images cliOptions)).1.
Proof.
  intros Hload Hpreset Himages Hargs Hfail.
  destruct (collect_err (resolveInstructions ext) _ _ _ Hargs Hfail) as [e' Hcollect].
  exists e'.
  assert (callAsync (run ext images cliOptions)
          = (resolutionTrace ext cliOptions config preset images,
             Returns (Rejected e'))) as Hrun.
  { unfold callAsync.
    rewrite (run_reaches_resolution _ _ _ _ _ Hload Hpreset Himages).
    unfold andThen, await. by rewrite Hcollect. }
  split; [exact Hrun|]. rewrite Hrun. apply resolutionTrace_no_generation.
Qed.

Lemma run_stops_on_resolution_failure_witness :
  ∃ e',
    callAsync (run (faultyCli silentConfig)
                 (Some ["logo.svg"; "broken.svg"; "mark.svg"]) None)
    = (resolutionTrace (faultyCli silentConfig) None silentConfig (BuiltIn minimal)
         (Some ["logo.svg"; "broken.svg"; "mark.svg"]),
       Returns (Rejected e'))
    ∧ Forall (λ ev, isGenerateAssets ev = false)
             (callAsync (run (faultyCli silentConfig)
                           (Some ["logo.svg"; "broken.svg"; "mark.svg"]) None)).1.
Proof.
  apply (run_stops_on_resolution_failure (faultyCli silentConfig)
           (Some ["logo.svg"; "broken.svg"; "mark.svg"]) None silentConfig
           (BuiltIn minimal)
           (resolveArgsOf (faultyCli silentConfig) "/work" (BuiltIn minimal)
              None false false "broken.svg")
           (Foreign "cannot read broken.svg"));
    [reflexivity|reflexivity|left; cbn; lia| |reflexivity].
  vm_compute. apply list_elem_of_further, list_elem_of_here.
Defined.

(** X14.  Every [generateAssets] call of a run is made with the same
    three settings: the override flag is [false] when the command line
    says [override: false] and otherwise the configuration's
    [overrideAssets] (default [true]); the output folder is the folder of
    the instruction's image; and a log callback is passed exactly when
    the log level (default "info") is not "silent". *)
Theorem run_generates_with_resolved_settings ext images cliOptions config :
  loadConfig ext (rootFor ext cliOptions) (cliOptions ?? emptyCliOptions) = Ok config →
  Forall (λ ev,
            match ev with
            | GenerateAssets instruction overrideAssets outDir log =>
                overrideAssets =
                  (if bool_decide (cli_override (cliOptions ?? emptyCliOptions)
                                   = Some false)
                   then false
                   else match cfg_overrideAssets config with
                        | Some b => b
                        | None => true
                        end)
                ∧ outDir = path_dirname ext (image instruction)
                ∧ log = bool_decide
                          (match cfg_logLevel config with
                           | Some level => level
                           | None => "info"
                           end ≠ "silent")
            | _ => True
            end)
         (callAsync (run ext images cliOptions)).1.
Proof.
  intros Hload. apply (run_trace_Forall _ _ _ _ _ Hload); done.
Qed.

Lemma run_generates_with_resolved_settings_witness :
  Forall (λ ev,
            match ev with
            | GenerateAssets instruction overrideAssets outDir log =>
                overrideAssets = false
                ∧ outDir = "/work"
                ∧ log = false
            | _ => True
            end)
         (callAsync (run (sampleCli silentConfig) None
                       (Some (mkCliOptions None None None None (Some false) None)))).1.
Proof.
  apply (run_generates_with_resolved_settings (sampleCli silentConfig) None
           (Some (mkCliOptions None None None None (Some false) None))
           silentConfig).
  reflexivity.
Defined.

(** X15.  With the log level "silent" a run prints nothing with
    [console.log]: neither HTML head links nor the web manifest icons
    entry, whatever the manifest settings. *)
Theorem run_silent_prints_nothing ext images cliOptions config :
  loadConfig ext (rootFor ext cliOptions) (cliOptions ?? emptyCliOptions) = Ok config →
  cfg_logLevel config = Some "silent" →
  Forall (λ ev, isConsoleLog ev = false) (callAsync (run ext images cliOptions)).1.
Proof.
  intros Hload Hsilent.
  apply (run_trace_Forall _ _ _ _ _ Hload); try done;
    unfold logLevelFor; rewrite Hsilent; cbn [nullish]; done.
Qed.

Lemma run_silent_prints_nothing_witness :
  Forall (λ ev, isConsoleLog ev = false)
         (callAsync (run (faultyCli silentConfig) None None)).1.
Proof.
  apply (run_silent_prints_nothing (faultyCli silentConfig) None None silentConfig);
    reflexivity.
Defined.



(** What one turn of the generation loop does: it makes its
    [generateAssets] call, and it fails exactly when that call fails. *)
Lemma generateFor_spec ext cliOptions config instruction tr :
  ∃ evs,
    generateFor ext cliOptions config instruction tr =
      (tr ++ evs,
       match generateAssets ext instruction (overrideFor cliOptions config)
               (path_dirname ext (image instruction))
               (bool_decide (logLevelFor config ≠ "silent")) with
       | Ok _ => Ok tt
       | Err e => Err e
       end)
    ∧ filter (λ ev, isGenerateAssets ev = true) evs
      = [generationOf ext cliOptions config instruction].
Proof.
  unfold generateFor, andThen at 1 2 3, emit at 1 2, await at 1.
  destruct (generateAssets ext instruction _ _ _) as [[]|e].
  - match goal with
    | |- context [andThen ?m ?k ?tr'] =>
        assert (emitsOnly (λ ev, isGenerateAssets ev = false) (andThen m k)) as Hrest;
        [|assert (extends (andThen m k) (okIf True)) as Hok]
    end.
    + apply emitsOnly_andThen; [by apply emitsOnly_emit|intros _].
      apply emitsOnly_if; [intros _|intros _; apply emitsOnly_pure].
      apply emitsOnly_andThen.
      * apply emitsOnly_if; [intros _|intros _; apply emitsOnly_pure].
        apply emitsOnly_andThen; [by apply emitsOnly_emit|intros _].
        apply emitsOnly_andThen; [|intros _; by apply emitsOnly_emit].
        apply emitsOnly_forEach. intros link _. by apply emitsOnly_emit.
      * intros _. apply emitsOnly_if; [intros _|intros _; apply emitsOnly_pure].
        repeat (apply emitsOnly_andThen; [by apply emitsOnly_emit|intros _]).
        by apply emitsOnly_emit.
    + apply extends_andThen; [apply extends_emit|intros _].
      apply extends_if; [|apply extends_pure].
      apply extends_andThen.
      * apply extends_if; [|apply extends_pure].
        apply extends_andThen; [apply extends_emit|intros _].
        apply extends_andThen; [|intros _; apply extends_emit].
        apply extends_forEach. intros link. apply extends_emit.
      * intros _. apply extends_if; [|apply extends_pure].
        repeat (apply extends_andThen; [apply extends_emit|intros _]).
        apply extends_emit.
    + match goal with
      | |- context [andThen ?m ?k ?tr'] =>
          destruct (Hrest tr') as (evs & r & Hrun & Hevs);
          destruct (Hok tr') as (evs' & r' & Hrun' & Hr')
      end.
      rewrite Hrun in Hrun'. injection Hrun' as _ <-.
      destruct (Hr' I) as [[] ->]. rewrite Hrun.
      eexists (_ :: _ :: evs). split.
      * rewrite <- !app_assoc. reflexivity.
      * rewrite filter_cons_False by done. rewrite filter_cons_True by done.
        rewrite (filter_none _ evs); [done|].
        eapply Forall_impl; [exact Hevs|]. intros ev ->. done.
  - eexists [_; _]. split.
    + rewrite <- !app_assoc. reflexivity.
    + reflexivity.
Qed.

(** The generation loop attempts a prefix of the instructions, in
    order. *)
Lemma forEach_generateFor ext cliOptions config instructions : ∀ tr,
  ∃ evs r n,
    forEach instructions (generateFor ext cliOptions config) tr = (tr ++ evs, r)
    ∧ (n ≤ length instructions)%nat
    ∧ filter (λ ev, isGenerateAssets ev = true) evs
      = map (generationOf ext cliOptions config) (take n instructions)
    ∧ (r = Ok tt → n = length instructions)
    ∧ (∀ e, r = Err e →
         (0 < n)%nat
         ∧ ∃ i, instructions !! (n - 1)%nat = Some i
                ∧ generateAssets ext i (overrideFor cliOptions config)
                    (path_dirname ext (image i))
                    (bool_decide (logLevelFor config ≠ "silent")) = Err e).
Proof.
  induction instructions as [|i rest IH]; intros tr; cbn [forEach].
  - exists [], (Ok tt), 0%nat. unfold pure. rewrite app_nil_r.
    repeat split; try done.
  - unfold andThen.
    destruct (generateFor_spec ext cliOptions config i tr) as (evs1 & -> & Hf1).
    destruct (generateAssets ext i _ _ _) as [[]|e] eqn:Hgen.
    + destruct (IH (tr ++ evs1)) as (evs2 & r & n & -> & Hn & Hf2 & Hok & Herr).
      exists (evs1 ++ evs2), r, (S n). rewrite app_assoc.
      split; [done|]. split; [cbn [length]; lia|]. split; [|split].
      * rewrite filter_app, Hf1, Hf2. reflexivity.
      * intros Hr. cbn [length]. by rewrite (Hok Hr).
      * intros e Hr. destruct (Herr e Hr) as (Hpos & j & Hj & Hfail).
        split; [lia|]. exists j. split; [|done].
        replace (S n - 1)%nat with (S (n - 1)) by lia. done.
    + exists evs1, (Err e), 1%nat.
      split; [done|]. split; [cbn [length]; lia|]. split; [|split].
      * by rewrite Hf1.
      * done.
      * intros e' [= <-]. split; [lia|]. exists i. by split.
Qed.

Lemma afterResolution_spec ext cliOptions config images instructions tr :
  ∃ evs r n,
    afterResolution ext cliOptions config images instructions tr = (tr ++ evs, r)
    ∧ (n ≤ length instructions)%nat
    ∧ filter (λ ev, isGenerateAssets ev = true) evs
      = map (generationOf ext cliOptions config) (take n instructions)
    ∧ (r = Ok tt → n = length instructions)
    ∧ (∀ e, r = Err e →
         (0 < n)%nat
         ∧ ∃ i, instructions !! (n - 1)%nat = Some i
                ∧ generateAssets ext i (overrideFor cliOptions config)
                    (path_dirname ext (image i))
                    (bool_decide (logLevelFor config ≠ "silent")) = Err e).
Proof.
  unfold afterResolution, andThen, emit.
  match goal with
  | |- context [forEach instructions ?body ?tr'] =>
      destruct (forEach_generateFor ext cliOptions config instructions tr')
        as (evs & r & n & -> & Hn & Hf & Hok & Herr)
  end.
  destruct r as [[]|e].
  - eexists (_ :: _ :: evs ++ [_]), (Ok tt), n. split; [|split; [done|split]].
    + rewrite <- !app_assoc. reflexivity.
    + rewrite !filter_cons_False by done. rewrite filter_app, Hf.
      rewrite filter_cons_False by done. by rewrite app_nil_r.
    + done.
  - eexists (_ :: _ :: evs), (Err e), n. split; [|split; [done|split]].
    + rewrite <- !app_assoc. reflexivity.
    + by rewrite !filter_cons_False by done.
    + done.
Qed.

(** X17.  Once every image is resolved, assets are generated for the
    instructions one after the other, in the order of the images, and the
    loop stops at the first failure: the [generateAssets] calls of a run
    are exactly those for the first [n] instructions; [n] is all of them
    when the promise is fulfilled, and when it is rejected the error is
    the one of the [n]-th call, the last one made. *)
Theorem run_generates_in_order_until_failure ext images cliOptions config preset
    instructions :
  loadConfig ext (rootFor ext cliOptions) (cliOptions ?? emptyCliOptions) = Ok config →
  cfg_preset config = Some preset →
  length (images ?? []) ≠ 0%nat ∨ imagesLength (cfg_images config) ≠ 0%nat →
  collect (map (resolveInstructions ext)
             (callsFor ext cliOptions config preset images)) = Ok instructions →
  ∃ n,
    (n ≤ length instructions)%nat
    ∧ filter (λ ev, isGenerateAssets ev = true)
             (callAsync (run ext images cliOptions)).1
      = map (generationOf ext cliOptions config) (take n instructions)
    ∧ ((callAsync (run ext images cliOptions)).2 = Returns (Fulfilled tt) →
       n = length instructions)
    ∧ (∀ e, (callAsync (run ext images cliOptions)).2 = Returns (Rejected e) →
         (0 < n)%nat
         ∧ ∃ i, instructions !! (n - 1)%nat = Some i
                ∧ generateAssets ext i (overrideFor cliOptions config)
                    (path_dirname ext (image i))
                    (bool_decide (logLevelFor config ≠ "silent")) = Err e).
Proof.
  intros Hload Hpreset Himages Hcollect.
  rewrite callAsync_trace, callAsync_outcome.
  rewrite (run_reaches_resolution _ _ _ _ _ Hload Hpreset Himages).
  unfold andThen, await. rewrite Hcollect.
  destruct (afterResolution_spec ext cliOptions config images instructions
              (resolutionTrace ext cliOptions config preset images))
    as (evs & r & n & -> & Hn & Hf & Hok & Herr).
  exists n. split; [done|]. cbn [fst snd]. split; [|split].
  - rewrite filter_app, Hf.
    rewrite (filter_none _ (resolutionTrace _ _ _ _ _)); [done|].
    eapply Forall_impl; [apply resolutionTrace_no_generation|].
    intros ev ->. done.
  - destruct r as [[]|e]; [intros _; by apply Hok|intros [=]].
  - intros e. destruct r as [[]|e']; [intros [=]|]. intros [= <-]. by apply Herr.
Qed.

Lemma run_generates_in_order_until_failure_witness :
  ∃ n,
    (n ≤ length [plainInstruction "logo.svg"; plainInstruction "locked.svg";
                 plainInstruction "mark.svg"])%nat
    ∧ filter (λ ev, isGenerateAssets ev = true)
             (callAsync (run (faultyCli silentConfig)
                           (Some ["logo.svg"; "locked.svg"; "mark.svg"]) None)).1
      = map (generationOf (faultyCli silentConfig) None silentConfig)
            (take n [plainInstruction "logo.svg"; plainInstruction "locked.svg";
                     plainInstruction "mark.svg"])
    ∧ ((callAsync (run (faultyCli silentConfig)
                     (Some ["logo.svg"; "locked.svg"; "mark.svg"]) None)).2
       = Returns (Fulfilled tt) →
       n = length [plainInstruction "logo.svg"; plainInstruction "locked.svg";
                   plainInstruction "mark.svg"])
    ∧ (∀ e, (callAsync (run (faultyCli silentConfig)
                          (Some ["logo.svg"; "locked.svg"; "mark.svg"]) None)).2
            = Returns (Rejected e) →
         (0 < n)%nat
         ∧ ∃ i, [plainInstruction "logo.svg"; plainInstruction "locked.svg";
                 plainInstruction "mark.svg"] !! (n - 1)%nat = Some i
                ∧ generateAssets (faultyCli silentConfig) i
                    (overrideFor None silentConfig)
                    (path_dirname (faultyCli silentConfig) (image i))
                    (bool_decide (logLevelFor silentConfig ≠ "silent")) = Err e).
Proof.
  apply (run_generates_in_order_until_failure (faultyCli silentConfig)
           (Some ["logo.svg"; "locked.svg"; "mark.svg"]) None silentConfig
           (BuiltIn minimal));
    [reflexivity|reflexivity|left; cbn; lia|reflexivity].
Defined.

(** On that run the second of three calls fails: two calls are made, the
    third image is never generated. *)
Example generation_stops_at_locked_image :
  filter (λ ev, isGenerateAssets ev = true)
         (callAsync (run (faultyCli silentConfig)
                       (Some ["logo.svg"; "locked.svg"; "mark.svg"]) None)).1
  = [GenerateAssets (plainInstruction "logo.svg") true "/work" false;
     GenerateAssets (plainInstruction "locked.svg") true "/work" false]
  ∧ (callAsync (run (faultyCli silentConfig)
                  (Some ["logo.svg"; "locked.svg"; "mark.svg"]) None)).2
    = Returns (Rejected (Foreign "cannot write the assets of locked.svg")).
Proof. by vm_compute. Qed.

(** * When the duplicate check is a check of pairs *)

Lemma dedupByDimsFrom_NoDup sizes : ∀ seen,
  NoDup (map dims (dedupByDimsFrom seen sizes))
  ∧ ∀ size, size ∈ dedupByDimsFrom seen sizes → dims size ∉ seen.
Proof.
  induction sizes as [|s rest IH]; intros seen; cbn [dedupByDimsFrom].
  - split; [constructor|]. intros size Hin. by apply elem_of_nil in Hin.
  - case_bool_decide as Hseen; [apply IH|].
    destruct (IH ({[dims s]} ∪ seen)) as [Hnd Hfresh]. split.
    + cbn [map]. constructor; [|done].
      intros (d & Hd & Hin)%list_elem_of_fmap.
      apply Hfresh in Hin. rewrite <- Hd in Hin.
      apply Hin, elem_of_union_l. by apply elem_of_singleton.
    + intros size [->|Hin]%elem_of_cons; [done|].
      apply Hfresh in Hin. intros Hs. by apply Hin, elem_of_union_r.
Qed.

(** X18.  On an input in which no width is declared with two different
    heights, the width-keyed map is as good as a set of pairs: the
    expander keeps exactly the first descriptor of every declared
    (width, height) pair, no two expanded descriptors share their declared
    dimensions, and the number of variants is four per distinct pair with
    a dark override plus two per distinct pair without. *)
Theorem expander_dedups_by_pair_when_widths_determine_heights png0 sizes :
  (∀ a b, a ∈ sizes → b ∈ sizes → width a = width b → height a = height b) →
  keptOf sizes = dedupByDims sizes
  ∧ NoDup (map dims (keptOf sizes))
  ∧ length (splashScreensOf png0 sizes) = specVariantCount sizes.
Proof.
  intros Hfun. rewrite (keptOf_dedupByDims sizes Hfun).
  split; [done|]. split.
  - apply dedupByDimsFrom_NoDup.
  - rewrite splashScreensOf_length. unfold specVariantCount.
    by rewrite (keptOf_dedupByDims sizes Hfun).
Qed.

Lemma expander_dedups_by_pair_when_widths_determine_heights_witness :
  keptOf repeatedFirstSizes = dedupByDims repeatedFirstSizes
  ∧ NoDup (map dims (keptOf repeatedFirstSizes))
  ∧ length (splashScreensOf emptyPngOptions repeatedFirstSizes)
    = specVariantCount repeatedFirstSizes.
Proof.
  apply (expander_dedups_by_pair_when_widths_determine_heights
           emptyPngOptions repeatedFirstSizes).
  intros a b Ha Hb. unfold repeatedFirstSizes in Ha, Hb.
  rewrite !elem_of_cons, elem_of_nil in Ha, Hb.
  destruct Ha as [->|[->|[->|[]]]], Hb as [->|[->|[->|[]]]];
    cbn [width height bareSize]; intros Hw; first [reflexivity|discriminate Hw].
Defined.


